(** * Batch orchestration and Server-Timing serialization of
      [shortfin_apps/sd/components/generate.py]

    The development embeds three layers of the module:
    - the Python runtime facts the module leans on (text of a [float],
      [str.join], insertion ordered [dict]);
    - the structured-field classes ([HTTPDecimalField] ... [HTTPParametersField])
      and the older [ServerTimingMetric];
    - the two fibers: [GenerateImageProcess] (one image) and
      [ClientGenerateBatchProcess] (one client batch), run by a cooperative
      scheduler whose choices are an explicit input. *)

From Stdlib Require Import ZArith List Bool Lia PeanoNat.
From Stdlib Require Import Strings.String Strings.Ascii Numbers.DecimalString.
From Stdlib Require Import Floats.SpecFloat.
Import ListNotations.

Set Warnings "-register-all".

Local Open Scope list_scope.
Local Open Scope string_scope.

(** ** Python runtime: text *)

Module Py.

(** The double quote character, as a one character string. *)
Definition dquote : string := String "034"%char EmptyString.

(** [sep.join(parts)] *)
Fixpoint join (sep : string) (parts : list string) : string :=
  match parts with
  | [] => ""
  | [p] => p
  | p :: rest => p ++ sep ++ join sep rest
  end.

(** [str(n)] for a non-negative [int]. *)
Definition str_of_nat (n : nat) : string :=
  NilEmpty.string_of_uint (Nat.to_uint n).

(** [str(z)] for an [int]. *)
Definition str_of_Z (z : Z) : string :=
  NilEmpty.string_of_int (Z.to_int z).

(** [c * n] for a one character string [c]. *)
Fixpoint repeat_char (c : ascii) (n : nat) : string :=
  match n with
  | O => ""
  | S n' => String c (repeat_char c n')
  end.

(** [range(n)]: empty when [n <= 0]. *)
Definition range (n : Z) : list nat := seq 0 (Z.to_nat n).

(** [enumerate(l)] *)
Definition enumerate {A : Type} (l : list A) : list (nat * A) :=
  combine (seq 0 (List.length l)) l.

(** *** Insertion ordered [dict] with [str] keys

    Kept as an association list in insertion order.  Storing under a key that
    is already present replaces the value and leaves the key where it was
    first inserted. *)
Section Dict.
Context {V : Type}.

Definition dict := list (string * V).

Fixpoint setitem (key : string) (value : V) (d : dict) : dict :=
  match d with
  | [] => [(key, value)]
  | (k, v) :: d' =>
      if String.eqb k key then (k, value) :: d'
      else (k, v) :: setitem key value d'
  end.

(** [dict(pairs)], also [dict(k1=v1, k2=v2, ...)] *)
Definition dict_of (pairs : list (string * V)) : dict :=
  fold_left (fun d kv => setitem (fst kv) (snd kv) d) pairs [].

(** [d.items()] *)
Definition items (d : dict) : list (string * V) := d.
End Dict.
Arguments dict V : clear implicits.

End Py.

(** ** Python runtime: [float]

    A [float] is an IEEE 754 binary64 value.  [str(x)], [repr(x)] and
    [f"{x}"] all give the same text: the shortest decimal digit string that
    reads back as [x] (the nearest one to [x] among the shortest), laid out
    in positional notation when the decimal point falls in [-4 < decpt <= 16]
    and in exponent notation otherwise. *)

Module PyFloat.
Local Open Scope Z_scope.

Definition prec : Z := 53.
Definition emax : Z := 1024.
Definition emin : Z := 3 - emax - prec.

Definition float : Type := spec_float.

(** [float(n)] for an [int] [n] *)
Definition of_int (n : Z) : float := binary_normalize prec emax n 0 false.

(** [x / y] for a divisor that is not zero *)
Definition truediv (x y : float) : float := SFdiv prec emax x y.

(** [x * y] *)
Definition mul (x y : float) : float := SFmul prec emax x y.

(** [a / b] for two [int]s with [0 < b]: the binary64 value nearest to the
    exact quotient.  The quotient is taken with 80 extra binary places and a
    sticky last bit, then rounded once. *)
Definition int_truediv (a b : Z) : float :=
  let scaled := Z.abs a * 2 ^ 80 in
  let sticky := if scaled mod b =? 0 then 0 else 1 in
  binary_normalize prec emax
    (Z.sgn a * (2 * (scaled / b) + sticky)) (- 81) false.

(** [num / den] as a fraction, compared with a power of ten:
    [10 ^ k <= num / den] *)
Definition pow10_le (k num den : Z) : bool :=
  if 0 <=? k then 10 ^ k * den <=? num else den <=? num * 10 ^ (- k).

Fixpoint adjust_down (fuel : nat) (num den k : Z) : Z :=
  match fuel with
  | O => k
  | S fuel' =>
      if pow10_le k num den then k else adjust_down fuel' num den (k - 1)
  end.

Fixpoint adjust_up (fuel : nat) (num den k : Z) : Z :=
  match fuel with
  | O => k
  | S fuel' =>
      if pow10_le (k + 1) num den then adjust_up fuel' num den (k + 1) else k
  end.

(** The [k] with [10 ^ k <= num / den < 10 ^ (k + 1)], for a positive
    fraction. *)
Definition decimal_exponent (num den : Z) : Z :=
  let k0 := (Z.log2 num - Z.log2 den) * 30103 / 100000 in
  adjust_up 4 num den (adjust_down 4 num den (k0 + 1)).

(** The rounding interval of the positive binary64 value [m * 2 ^ e]:
    every real strictly between [lo / den] and [hi / den] reads back as that
    value, and so do the two end points when [m] is even.  [v / den] is the
    value itself. *)
Record interval := {
  lo : Z;
  v : Z;
  hi : Z;
  den : Z;
  closed : bool
}.

Definition rounding_interval (m : positive) (e : Z) : interval :=
  let boundary := (Zpos m =? 2 ^ (prec - 1)) && (emin <? e) in
  let up := if 0 <=? e - 2 then 2 ^ (e - 2) else 1 in
  {| lo := (4 * Zpos m - (if boundary then 1 else 2)) * up;
     v := 4 * Zpos m * up;
     hi := (4 * Zpos m + 2) * up;
     den := if 0 <=? e - 2 then 1 else 2 ^ (2 - e);
     closed := Z.even (Zpos m) |}.

(** The [n] digit decimal [d * 10 ^ q] nearest to the value, when one lies
    in the interval; [q] is chosen so that the value has [n] digits before
    the point once divided by [10 ^ q]. *)
Definition candidate (i : interval) (k n : Z) : option (Z * Z) :=
  let q := k - n + 1 in
  let sn := if q <? 0 then 10 ^ (- q) else 1 in
  let sd := if q <? 0 then 1 else 10 ^ q in
  let L := lo i * sn in
  let V := v i * sn in
  let H := hi i * sn in
  let D := den i * sd in
  let inside c :=
    if closed i then (L <=? c * D) && (c * D <=? H)
    else (L <? c * D) && (c * D <? H) in
  let d := V / D in
  match inside d, inside (d + 1) with
  | true, true =>
      let below := V - d * D in
      let above := (d + 1) * D - V in
      if below <? above then Some (d, q)
      else if above <? below then Some (d + 1, q)
      else if Z.even d then Some (d, q) else Some (d + 1, q)
  | true, false => Some (d, q)
  | false, true => Some (d + 1, q)
  | false, false => None
  end.

Fixpoint shortest (fuel : nat) (i : interval) (k n : Z) : Z * Z :=
  match fuel with
  | O => (v i / den i, 0)
  | S fuel' =>
      match candidate i k n with
      | Some dq => dq
      | None => shortest fuel' i k (n + 1)
      end
  end.

Fixpoint rstrip_zeros (s : string) : string :=
  match s with
  | EmptyString => EmptyString
  | String c rest =>
      match rstrip_zeros rest with
      | EmptyString => if Ascii.eqb c "0" then EmptyString else String c EmptyString
      | rest' => String c rest'
      end
  end.

(** Digits (no trailing zero) and position of the decimal point of the
    shortest text of [m * 2 ^ e]: the value is [0.digits * 10 ^ decpt]. *)
Definition digits_decpt (m : positive) (e : Z) : string * Z :=
  let i := rounding_interval m e in
  let k := decimal_exponent (v i) (den i) in
  let '(d, q) := shortest 17 i k 1 in
  let ds := Py.str_of_Z d in
  (rstrip_zeros ds, Z.of_nat (String.length ds) + q).

Definition exponent_text (x : Z) : string :=
  let negative := x <? 0 in
  let one_digit := Z.abs x <? 10 in
  ((if negative then "-" else "+") ++
   (if one_digit then "0" else "") ++ Py.str_of_Z (Z.abs x))%string.

Definition layout (ds : string) (decpt : Z) : string :=
  let n := Z.of_nat (String.length ds) in
  let several := 1 <? n in
  if (decpt <=? -4) || (16 <? decpt) then
    (substring 0 1 ds ++
     (if several then "." ++ substring 1 (String.length ds - 1) ds else "") ++
     "e" ++ exponent_text (decpt - 1))%string
  else if decpt <=? 0 then
    ("0." ++ Py.repeat_char "0" (Z.to_nat (- decpt)) ++ ds)%string
  else if n <=? decpt then
    (ds ++ Py.repeat_char "0" (Z.to_nat (decpt - n)) ++ ".0")%string
  else
    (substring 0 (Z.to_nat decpt) ds ++ "." ++
     substring (Z.to_nat decpt) (String.length ds - Z.to_nat decpt) ds)%string.

(** [repr(x)], which is also [str(x)] and [format(x, "")] *)
Definition repr (x : float) : string :=
  match x with
  | S754_zero s => if s then "-0.0" else "0.0"
  | S754_infinity s => if s then "-inf" else "inf"
  | S754_nan => "nan"
  | S754_finite s m e =>
      let '(ds, decpt) := digits_decpt m e in
      ((if s then "-" else "") ++ layout ds decpt)%string
  end.

End PyFloat.

(** ** Units

    [MetricPrefix.MILLI.value] is [10 ** (-3)], the binary64 value nearest to
    one thousandth. *)

Definition MILLI : PyFloat.float :=
  PyFloat.truediv (PyFloat.of_int 1) (PyFloat.of_int 1000).

Definition seconds_from (milliseconds : PyFloat.float) : PyFloat.float :=
  PyFloat.mul milliseconds MILLI.

Definition milliseconds_from (seconds : PyFloat.float) : PyFloat.float :=
  PyFloat.truediv seconds MILLI.

(** ** Python runtime: numbers

    A value annotated [float] is, at run time, an [int] or a [float]: neither
    a dataclass nor a function converts its arguments. *)

Module PyNumber.

Inductive number : Type :=
| Int (z : Z)
| Float (x : PyFloat.float).

(** [f"{n}"] *)
Definition format (n : number) : string :=
  match n with
  | Int z => Py.str_of_Z z
  | Float x => PyFloat.repr x
  end.

(** [float(n)]: an [int] is rounded to the nearest float, and one too large
    for a float raises [OverflowError] ([None] here). *)
Definition to_float (n : number) : option PyFloat.float :=
  match n with
  | Float x => Some x
  | Int z =>
      match PyFloat.of_int z with
      | S754_infinity _ => None
      | x => Some x
      end
  end.

End PyNumber.

(** ** [ServerTimingMetric]: the f-string rendering of one metric

    The dataclass keeps the duration it is given, [int] or [float]. *)

Record ServerTimingMetric := {
  name : string;
  description : string;
  duration_in_milliseconds : PyNumber.number
}.

Definition stringified (self : ServerTimingMetric) : string :=
  Py.join ";"
    [ name self;
      "desc=" ++ Py.dquote ++ description self ++ Py.dquote;
      "dur=" ++ PyNumber.format (duration_in_milliseconds self) ].

(** ** Structured fields

    One constructor per class.  [HTTPBooleanField], [HTTPDecimalField] and
    [HTTPStringField] carry the [bool], [float] and [str] they extend;
    [HTTPListField] the list, [HTTPParameterField] the pair and
    [HTTPParametersField] the [dict] (its items, in insertion order).

    [HTTPBooleanField] is the one class of these that CPython does not
    create: [bool] is not an acceptable base type, and the class statement
    raises [TypeError] (see [PyModule] below, where the statements of the
    module are executed).  Its constructor here stands for the value the
    class body is written for, a [bool] with a [serialized] property, the way
    [HTTPDecimalField] is a [float] with one; every statement below that
    depends on how such a value reads is a statement about that reading and
    not about a value the module can build.  The statements about lists,
    strings, decimals, parameter sets and the batch process do not depend on
    it. *)

Inductive HTTPStructuredField : Type :=
| HTTPDecimalField (self : PyFloat.float)
| HTTPStringField (self : string)
| HTTPListField (self : list HTTPStructuredField)
| HTTPBooleanField (self : bool)
| HTTPParameterField (key : string) (value : HTTPStructuredField)
| HTTPParametersField (self : Py.dict HTTPStructuredField).

(** [isinstance(value, HTTPBooleanField) and (value == True)].  No value of
    another class is an instance of [HTTPBooleanField], whatever that class
    turns out to be; on a Boolean field the test reads the [bool] it would
    extend. *)
Definition is_boolean_true (value : HTTPStructuredField) : bool :=
  match value with
  | HTTPBooleanField b => b
  | _ => false
  end.

(** The [serialized] property, class by class. *)
Fixpoint serialized (field : HTTPStructuredField) : string :=
  match field with
  | HTTPDecimalField self => PyFloat.repr self
  | HTTPStringField self => Py.dquote ++ self ++ Py.dquote
  | HTTPListField self => Py.join "," (map serialized self)
  | HTTPBooleanField self => "?" ++ (if self then "1" else "0")
  | HTTPParameterField key value =>
      if is_boolean_true value then key
      else key ++ "=" ++ serialized value
  | HTTPParametersField self =>
      let serialized_parameter_fields :=
        map (fun each : string * HTTPStructuredField =>
               let (key, value) := each in
               if is_boolean_true value then key
               else key ++ "=" ++ serialized value)
            (Py.items self) in
      Py.join ";" serialized_parameter_fields
  end.

Definition serialized_server_timing_metrics_from
    (given_metrics : HTTPStructuredField) : string :=
  serialized given_metrics.

(** [HTTPParametersField(k1=v1, ...)] and [HTTPParametersField(pairs)] build
    the underlying [dict] first. *)
Definition HTTPParametersField_of
    (entries : list (string * HTTPStructuredField)) : HTTPStructuredField :=
  HTTPParametersField (Py.dict_of entries).

(** [HTTPDecimalField(n)] for an [int] literal [n] *)
Definition HTTPDecimalField_of_int (n : Z) : HTTPStructuredField :=
  HTTPDecimalField (PyFloat.of_int n).

(** [HTTPDecimalField(n)] for a number [n]: the field is [float(n)]. *)
Definition HTTPDecimalField_new (n : PyNumber.number)
    : option HTTPStructuredField :=
  option_map HTTPDecimalField (PyNumber.to_float n).

(** ** The module, statement by statement

    Importing [generate.py] executes its class and function statements in
    order.  A class statement looks up its bases and asks each whether it
    may be extended; CPython's [bool] (like [NoneType], [range], [slice] and
    [memoryview]) may not, and the statement raises [TypeError].  The first
    statement that raises ends the import; what follows is never bound. *)

Module PyModule.

Inductive error : Type :=
| NameError (name : string)
| TypeError (message : string).

Inductive statement : Type :=
| Class (name : string) (bases : list string)
| Def (name : string).

(** Built-in types that refuse to be a base. *)
Definition final_types : list string :=
  ["bool"; "NoneType"; "range"; "slice"; "memoryview"].

Definition bound (name : string) (names : list string) : bool :=
  existsb (String.eqb name) names.

Fixpoint check_bases (names bases : list string) : option error :=
  match bases with
  | [] => None
  | b :: rest =>
      if negb (bound b names) then Some (NameError b)
      else if bound b final_types then
        Some (TypeError ("type '" ++ b ++ "' is not an acceptable base type"))
      else check_bases names rest
  end.

(** One statement: the names bound afterwards, or the exception. *)
Definition execute_statement (names : list string) (st : statement)
    : error + list string :=
  match st with
  | Def name => inr (names ++ [name])%list
  | Class name bases =>
      match check_bases names bases with
      | Some e => inl e
      | None => inr (names ++ [name])%list
      end
  end.

(** The statements in order, up to the first that raises. *)
Fixpoint execute (names : list string) (body : list statement)
    : list string * option error :=
  match body with
  | [] => (names, None)
  | st :: rest =>
      match execute_statement names st with
      | inl e => (names, Some e)
      | inr names' => execute names' rest
      end
  end.

(** The built-ins and the imported names the class statements refer to
    (a subscripted base such as [list[...]] stands for its origin). *)
Definition imported : list string :=
  ["float"; "str"; "list"; "bool"; "tuple"; "dict";
   "sf.Process"; "Enum"; "Protocol"].

(** The class and function statements of [generate.py], in source order. *)
Definition generate : list statement :=
  [ Class "GenerateImageProcess" ["sf.Process"];
    Class "MetricPrefix" ["Enum"];
    Def "seconds_from";
    Def "milliseconds_from";
    Class "ServerTimingMetric" [];
    Class "HTTPStructuredField" ["Protocol"];
    Class "HTTPDecimalField" ["HTTPStructuredField"; "float"];
    Class "HTTPStringField" ["HTTPStructuredField"; "str"];
    Class "HTTPListField" ["HTTPStructuredField"; "list"];
    Class "HTTPBooleanField" ["HTTPStructuredField"; "bool"];
    Class "HTTPParameterField" ["HTTPStructuredField"; "tuple"];
    Class "HTTPParametersField" ["HTTPStructuredField"; "dict"];
    Def "serialized_server_timing_metrics_from";
    Class "ClientGenerateBatchProcess" ["sf.Process"] ].

(** [import generate]: the names the module binds, and the exception that
    ends the import, if any. *)
Definition import_generate : list string * option error :=
  execute imported generate.

End PyModule.

(** ** Python runtime: [datetime]

    A naive [datetime] is a count of microseconds; the difference of two is
    a [timedelta], again a count of microseconds (negative when the wall
    clock stepped back). *)

Definition datetime : Type := Z.
Definition timedelta : Type := Z.

(** [end - start] *)
Definition datetime_sub (interval_end interval_start : datetime) : timedelta :=
  (interval_end - interval_start)%Z.

(** [td.total_seconds()]: the microsecond count over [10 ** 6] *)
Definition total_seconds (td : timedelta) : PyFloat.float :=
  PyFloat.int_truediv td (10 ^ 6).

(** ** Exceptions, completions and the observable events of a batch *)

Inductive PyException : Type :=
| Exception (message : string).

(** How a coroutine ends: it returns, it raises, or it stays suspended at an
    [await] that never resolves. *)
Inductive completion : Type :=
| Returned
| Raised (e : PyException)
| Suspended.

Inductive event : Type :=
| EvLaunch (index : nat)      (* [gen_process.launch()] *)
| EvSubmit (index : nat)      (* [self.client.batcher.submit(exec)] *)
| EvDone (index : nat)        (* item process [index] ran to its end *)
| EvAssemble (index : nat)    (* the batch inspects the output of [index] *)
| EvSendResponse              (* [self.responder.send_response(...)] *)
| EvEnsureResponse.           (* [self.responder.ensure_response()] *)

(** Events of the batch process past its [await asyncio.gather(...)]. *)
Definition past_join (e : event) : bool :=
  match e with
  | EvAssemble _ | EvSendResponse | EvEnsureResponse => true
  | _ => false
  end.

Definition is_ensure (e : event) : bool :=
  match e with
  | EvEnsureResponse => true
  | _ => false
  end.

Definition is_send (e : event) : bool :=
  match e with
  | EvSendResponse => true
  | _ => false
  end.

(** The three metric groups of the [Server-Timing] header. *)
Definition server_timing_metrics
    (prompt_to_png_batch_duration_in_milliseconds : PyFloat.float)
    : HTTPStructuredField :=
  HTTPListField
    [ HTTPParametersField_of
        [ ("pre", HTTPBooleanField true);
          ("desc", HTTPStringField "Batch Pre-processing");
          ("dur", HTTPDecimalField_of_int 0) ];
      HTTPParametersField_of
        [ ("infer", HTTPBooleanField true);
          ("desc", HTTPStringField "Batch Inference");
          ("dur", HTTPDecimalField prompt_to_png_batch_duration_in_milliseconds) ];
      HTTPParametersField_of
        [ ("post", HTTPBooleanField true);
          ("desc", HTTPStringField "Batch Post-processing");
          ("dur", HTTPDecimalField prompt_to_png_batch_duration_in_milliseconds) ] ].

(** ** The two processes *)

Section Batch.

(** What the code receives from its collaborators. *)
Variable Image : Type.                       (* object left in [exec.response_image] *)
Variable truth : Image -> bool.              (* its truth value, [bool(image)] *)
Variable Png : Type.                         (* [Base64CharacterEncodedByteSequence] *)
Variable png_from : Image -> PyException + Png.

(** [JSONResponse(content=..., headers=..., media_type=...)] *)
Record JSONResponse := {
  content : Py.dict (list Png);
  headers : Py.dict string;
  media_type : string
}.

(** The exception raised while a [JSONResponse] is built, if any. *)
Variable render_fault : JSONResponse -> option PyException.

Definition new_JSONResponse
    (content : Py.dict (list Png)) (headers : Py.dict string)
    (media_type : string) : PyException + JSONResponse :=
  let response :=
    {| content := content; headers := headers; media_type := media_type |} in
  match render_fault response with
  | Some e => inl e
  | None => inr response
  end.

(** What reaches the response sink. *)
Inductive Delivered : Type :=
| Success (response : JSONResponse)
| Failure.

(** Modelled from the spec: [FastAPIResponder] of [shortfin.interop.fastapi]
    is not among the sources.  Section 6 fixes its contract: [send]
    delivers a response, and the finalization call is a no-op once a
    response was sent and delivers a failure response otherwise. *)
Record FastAPIResponder := {
  responded : bool;
  sink : list Delivered
}.

(** Modelled from the spec: [send_response] delivers the response to the
    sink and records that a response was sent. *)
Definition send_response (response : Delivered) (self : FastAPIResponder)
    : FastAPIResponder :=
  {| responded := true; sink := (sink self ++ [response])%list |}.

(** Modelled from the spec: [ensure_response] does nothing once a response
    was sent, and delivers a failure response otherwise. *)
Definition ensure_response (self : FastAPIResponder) : FastAPIResponder :=
  if responded self then self else send_response Failure self.

(** *** [GenerateImageProcess] *)

Record TextToImageInferenceOutput := { image : Image }.

(** Where an item process stands: scheduled by [launch()], suspended at
    [await exec.done], or past the end of [run]. *)
Inductive stage : Type := Launched | Awaiting | Finished.

Record GenerateImageProcess := {
  index : nat;
  output : option TextToImageInferenceOutput;
  at_stage : stage
}.

(** [GenerateImageProcess(client, gen_req, index)] followed by [launch()] *)
Definition new_GenerateImageProcess (index : nat) : GenerateImageProcess :=
  {| index := index; output := None; at_stage := Launched |}.

(** The conditional expression stored in [self.output]. *)
Definition output_from (response_image : option Image)
    : option TextToImageInferenceOutput :=
  match response_image with
  | Some img => if truth img then Some {| image := img |} else None
  | None => None
  end.

(** What the environment decides for one batch. *)
Record World := {
  num_output_images : Z;                  (* [gen_req.num_output_images] *)
  response_image : nat -> option Image;   (* slot of the exec of each index
                                             once its [done] has fired *)
  schedule : list nat;                    (* item processes, in the order
                                             the executor resumes them *)
  interval_start : datetime;              (* first [datetime.now()] *)
  interval_end : datetime                 (* second [datetime.now()] *)
}.

(** [GenerateImageProcess.run], one resumption at a time.  A launched
    process builds its exec with [from_batch], submits it to the batcher and
    suspends at [await exec.done]; resumed once [done] has fired, it stores
    [self.output] and ends.  A finished process is not resumed again. *)
Definition resume (w : World) (self : GenerateImageProcess)
    : GenerateImageProcess * list event :=
  match at_stage self with
  | Launched =>
      ({| index := index self; output := output self; at_stage := Awaiting |},
       [EvSubmit (index self)])
  | Awaiting =>
      ({| index := index self;
          output := output_from (response_image w (index self));
          at_stage := Finished |},
       [EvDone (index self)])
  | Finished => (self, [])
  end.

(** The executor resumes the item process of index [i]; the processes are
    the objects held in [gen_processes], updated in place. *)
Definition resume_index (w : World) (i : nat)
    (gen_processes : list GenerateImageProcess)
    : list GenerateImageProcess * list event :=
  (map (fun p => if Nat.eqb (index p) i then fst (resume w p) else p) gen_processes,
   flat_map (fun p => if Nat.eqb (index p) i then snd (resume w p) else [])
     gen_processes).

(** The executor while the batch process is suspended: it resumes item
    processes in the order of the schedule. *)
Fixpoint event_loop (w : World) (schedule : list nat)
    (gen_processes : list GenerateImageProcess)
    : list GenerateImageProcess * list event :=
  match schedule with
  | [] => (gen_processes, [])
  | i :: rest =>
      let (resumed, evs) := resume_index w i gen_processes in
      let (final, evs') := event_loop w rest resumed in
      (final, (evs ++ evs')%list)
  end.

(** One process followed through a whole schedule. *)
Fixpoint settle (w : World) (schedule : list nat) (p : GenerateImageProcess)
    : GenerateImageProcess :=
  match schedule with
  | [] => p
  | i :: rest =>
      settle w rest (if Nat.eqb (index p) i then fst (resume w p) else p)
  end.

(** Resumptions an item process still needs before it is finished. *)
Definition steps_left (p : GenerateImageProcess) : nat :=
  match at_stage p with
  | Launched => 2
  | Awaiting => 1
  | Finished => 0
  end.

Definition is_finished (p : GenerateImageProcess) : bool :=
  match at_stage p with
  | Finished => true
  | _ => false
  end.

(** *** [ClientGenerateBatchProcess] *)

(** The launching loop. *)
Definition launch_all (w : World) : list GenerateImageProcess * list event :=
  (map new_GenerateImageProcess (Py.range (num_output_images w)),
   map EvLaunch (Py.range (num_output_images w))).

Definition missing_output (index_of_each_process : nat) : PyException :=
  Exception ("Expected output for process " ++
             Py.str_of_nat index_of_each_process ++ " but got `None`").

(** The loop over [enumerate(gen_processes)] that fills [png_images]. *)
Fixpoint assemble (each : list (nat * GenerateImageProcess))
    (png_images : list Png) : (PyException + list Png) * list event :=
  match each with
  | [] => (inr png_images, [])
  | (index_of_each_process, each_process) :: rest =>
      match output each_process with
      | None =>
          (inl (missing_output index_of_each_process),
           [EvAssemble index_of_each_process])
      | Some out =>
          match png_from (image out) with
          | inl e => (inl e, [EvAssemble index_of_each_process])
          | inr each_png_image =>
              let (result, evs) :=
                assemble rest (png_images ++ [each_png_image])%list in
              (result, EvAssemble index_of_each_process :: evs)
          end
      end
  end.

Definition batch_duration_in_milliseconds (w : World) : PyFloat.float :=
  milliseconds_from
    (total_seconds (datetime_sub (interval_end w) (interval_start w))).

(** The launching loop and the [await] on [asyncio.gather]:
    the item processes as the executor leaves them, and whether the gather
    resolved (every awaited process finished). *)
Definition join (w : World) : list GenerateImageProcess * bool * list event :=
  let (gen_processes, launched) := launch_all w in
  let (final, resumed) := event_loop w (schedule w) gen_processes in
  (final, forallb is_finished final, (launched ++ resumed)%list).

(** The rest of the [try] block, once the gather resolved. *)
Definition respond (w : World) (gen_processes : list GenerateImageProcess)
    (responder : FastAPIResponder)
    : completion * FastAPIResponder * list event :=
  let (assembled, evs) := assemble (Py.enumerate gen_processes) [] in
  match assembled with
  | inl e => (Raised e, responder, evs)
  | inr png_images =>
      let duration := batch_duration_in_milliseconds w in
      match
        new_JSONResponse
          (Py.dict_of [("images", png_images)])
          (Py.dict_of
             [("Server-Timing",
               serialized (server_timing_metrics duration))])
          "application/json"
      with
      | inl e => (Raised e, responder, evs)
      | inr response =>
          (Returned, send_response (Success response) responder,
           (evs ++ [EvSendResponse])%list)
      end
  end.

Definition try_block (w : World) (responder : FastAPIResponder)
    : completion * FastAPIResponder * list event :=
  let '(gen_processes, resolved, joined) := join w in
  if resolved then
    let '(c, responder', evs) := respond w gen_processes responder in
    (c, responder', (joined ++ evs)%list)
  else (Suspended, responder, joined).

(** [ClientGenerateBatchProcess.run]: the [try] block, then the [finally]
    clause unless the coroutine never left its [await]. *)
Definition run (w : World) (responder : FastAPIResponder)
    : completion * FastAPIResponder * list event :=
  let '(c, responder', evs) := try_block w responder in
  match c with
  | Suspended => (Suspended, responder', evs)
  | _ => (c, ensure_response responder', (evs ++ [EvEnsureResponse])%list)
  end.

End Batch.

Arguments content {Png} _.
Arguments headers {Png} _.
Arguments media_type {Png} _.
Arguments new_JSONResponse {Png} render_fault content headers media_type.
Arguments Success {Png} response.
Arguments Failure {Png}.
Arguments responded {Png} _.
Arguments sink {Png} _.
Arguments send_response {Png} response self.
Arguments ensure_response {Png} self.
Arguments image {Image} _.
Arguments index {Image} _.
Arguments output {Image} _.
Arguments at_stage {Image} _.
Arguments new_GenerateImageProcess {Image} index.
Arguments output_from {Image} truth response_image.
Arguments num_output_images {Image} _.
Arguments response_image {Image} _ _.
Arguments schedule {Image} _.
Arguments interval_start {Image} _.
Arguments interval_end {Image} _.
Arguments resume {Image} truth w self.
Arguments resume_index {Image} truth w i gen_processes.
Arguments event_loop {Image} truth w schedule gen_processes.
Arguments is_finished {Image} p.
Arguments settle {Image} truth w schedule p.
Arguments steps_left {Image} p.
Arguments launch_all {Image} w.
Arguments assemble {Image Png} png_from each png_images.
Arguments batch_duration_in_milliseconds {Image} w.
Arguments join {Image} truth w.
Arguments respond {Image Png} png_from render_fault w gen_processes responder.
Arguments try_block {Image} truth {Png} png_from render_fault w responder.
Arguments run {Image} truth {Png} png_from render_fault w responder.

(** ** Vocabulary of the properties *)

Section Vocabulary.
Variable Image : Type.
Variable truth : Image -> bool.
Variable Png : Type.
Variable png_from : Image -> PyException + Png.

(** Item process [i] of the batch once it ran to its end. *)
Definition finished_process (w : World Image) (i : nat)
    : GenerateImageProcess Image :=
  {| index := i;
     output := output_from truth (response_image w i);
     at_stage := Finished |}.

(** The processes the batch assembles from once its gather resolved,
    paired with their position. *)
Definition finished_batch (w : World Image)
    : list (nat * GenerateImageProcess Image) :=
  map (fun i => (i, finished_process w i))
    (Py.range (num_output_images w)).

(** The executor resumes every item process of the batch at least twice:
    once to let it submit its exec, once after its [done] fired. *)
Definition complete_schedule (w : World Image) : Prop :=
  forall i, (i < Z.to_nat (num_output_images w))%nat ->
            (2 <= count_occ Nat.eq_dec (schedule w) i)%nat.

(** The exec of index [i] comes back with an image that counts as true. *)
Definition item_succeeds (w : World Image) (i : nat) : Prop :=
  exists img, response_image w i = Some img /\ truth img = true.

(** Item [i] finished with an output and the encoder accepted its image. *)
Definition item_encodes (w : World Image) (i : nat) (png : Png) : Prop :=
  exists img,
    response_image w i = Some img /\ truth img = true
    /\ png_from img = inr png.

(** What one finished process contributes to [png_images]. *)
Definition encodes (each : nat * GenerateImageProcess Image) (png : Png)
    : Prop :=
  exists out,
    output (snd each) = Some out /\ png_from (image out) = inr png.

(** The response the batch sends when every image was encoded. *)
Definition success_response (w : World Image) (png_images : list Png)
    : JSONResponse Png :=
  {| content := [("images", png_images)];
     headers :=
       [("Server-Timing",
         serialized
           (server_timing_metrics (batch_duration_in_milliseconds w)))];
     media_type := "application/json" |}.
End Vocabulary.

Arguments finished_process {Image} truth w i.
Arguments finished_batch {Image} truth w.
Arguments complete_schedule {Image} w.
Arguments item_succeeds {Image} truth w i.
Arguments item_encodes {Image} truth {Png} png_from w i png.
Arguments success_response {Image Png} w png_images.
Arguments encodes {Image Png} png_from each png.

(** The worked example of the spec, with whatever value stands for the
    phase tag. *)
Definition pre_processing_entries (tag : HTTPStructuredField)
    : list (string * HTTPStructuredField) :=
  [ ("pre", tag);
    ("desc", HTTPStringField "Batch Pre-processing");
    ("dur", HTTPDecimalField_of_int 0) ].

Definition pre_processing_text (dur : string) : string :=
  "pre;desc=" ++ Py.dquote ++ "Batch Pre-processing" ++ Py.dquote ++
  ";dur=" ++ dur.

(** The description and duration entries of a metric. *)
Definition desc_dur_entries (d : string) (m : PyFloat.float)
    : list (string * HTTPStructuredField) :=
  [ ("desc", HTTPStringField d); ("dur", HTTPDecimalField m) ].

(** The three entries of a metric, with whatever value stands for the tag. *)
Definition metric_entries (n : string) (tag : HTTPStructuredField)
    (d : string) (m : PyFloat.float)
    : list (string * HTTPStructuredField) :=
  (n, tag) :: desc_dur_entries d m.

(** A string read from its end. *)
Fixpoint string_rev (s : string) : string :=
  match s with
  | EmptyString => EmptyString
  | String c rest => string_rev rest ++ String c EmptyString
  end.

(** ** A concrete batch

    Images are byte strings (true when not empty), the encoder prefixes
    them, and building a response never fails.  Three outputs are
    requested; the executor lets item 2 finish first and item 1 last. *)

Module Sample.

Definition Image : Type := string.
Definition truth (img : Image) : bool := negb (String.eqb img "").
Definition Png : Type := string.
Definition png_from (img : Image) : PyException + Png := inr ("png:" ++ img).
Definition render_fault (_ : JSONResponse Png) : option PyException := None.

Definition fresh : FastAPIResponder Png :=
  {| responded := false; sink := [] |}.

Definition all_succeed : World Image :=
  {| num_output_images := 3%Z;
     response_image := fun i => Some ("img" ++ Py.str_of_nat i);
     schedule := [2; 1; 2; 0; 0; 1]%nat;
     interval_start := 1000%Z;
     interval_end := 2500500%Z |}.

(** The same batch, the exec of index 1 coming back with empty bytes. *)
Definition item_1_empty : World Image :=
  {| num_output_images := 3%Z;
     response_image :=
       fun i => if Nat.eqb i 1 then Some "" else Some ("img" ++ Py.str_of_nat i);
     schedule := [2; 1; 2; 0; 0; 1]%nat;
     interval_start := 1000%Z;
     interval_end := 2500500%Z |}.

Definition joined_events : list event :=
  [ EvLaunch 0; EvLaunch 1; EvLaunch 2; EvSubmit 2; EvSubmit 1; EvDone 2;
    EvSubmit 0; EvDone 0; EvDone 1 ].

End Sample.

(** ** Further vocabulary *)

Definition is_launch (e : event) : bool :=
  match e with
  | EvLaunch _ => true
  | _ => false
  end.

Definition is_assemble (e : event) : bool :=
  match e with
  | EvAssemble _ => true
  | _ => false
  end.

Definition is_launch_of (i : nat) (e : event) : bool :=
  match e with
  | EvLaunch k => Nat.eqb k i
  | _ => false
  end.

Definition is_submit_of (i : nat) (e : event) : bool :=
  match e with
  | EvSubmit k => Nat.eqb k i
  | _ => false
  end.

Definition is_done_of (i : nat) (e : event) : bool :=
  match e with
  | EvDone k => Nat.eqb k i
  | _ => false
  end.

(** One [d[key] = value], with the pair as one argument. *)
Definition store {V : Type} (d : Py.dict V) (kv : string * V) : Py.dict V :=
  Py.setitem (fst kv) (snd kv) d.

(** The keys of a list of entries, each where it is first given. *)
Fixpoint first_occurrences (keys : list string) : list string :=
  match keys with
  | [] => []
  | k :: rest =>
      k :: filter (fun k' => negb (String.eqb k' k)) (first_occurrences rest)
  end.

(** The value of the last entry given under [key], if there is one. *)
Fixpoint last_given {V : Type} (key : string) (entries : list (string * V))
    : option V :=
  match entries with
  | [] => None
  | (k, v) :: rest =>
      match last_given key rest with
      | Some v' => Some v'
      | None => if String.eqb k key then Some v else None
      end
  end.

Section FurtherVocabulary.
Variable Image : Type.
Variable truth : Image -> bool.
Variable Png : Type.
Variable png_from : Image -> PyException + Png.

(** Item [i] stops the assembly with exception [e]: its output slot is
    empty, or the encoder raises [e] on its image. *)
Definition item_fails (w : World Image) (i : nat) (e : PyException) : Prop :=
  (output_from truth (response_image w i) = None /\ e = missing_output i)
  \/ (exists img,
        response_image w i = Some img /\ truth img = true
        /\ png_from img = inl e).

(** Two batches that differ at most in the order in which the executor
    resumes their item processes. *)
Definition same_batch (w1 w2 : World Image) : Prop :=
  num_output_images w1 = num_output_images w2
  /\ (forall i, response_image w1 i = response_image w2 i)
  /\ interval_start w1 = interval_start w2
  /\ interval_end w1 = interval_end w2.

(** The batch in which the exec of index [i] comes back with no image. *)
Definition absent_at (w : World Image) (i : nat) : World Image :=
  {| num_output_images := num_output_images w;
     response_image :=
       fun k => if Nat.eqb k i then None else response_image w k;
     schedule := schedule w;
     interval_start := interval_start w;
     interval_end := interval_end w |}.

Definition is_launched (p : GenerateImageProcess Image) : bool :=
  match at_stage p with
  | Launched => true
  | _ => false
  end.
End FurtherVocabulary.

Arguments item_fails {Image} truth {Png} png_from w i e.
Arguments same_batch {Image} w1 w2.
Arguments absent_at {Image} w i.
Arguments is_launched {Image} p.

(** Variations on the concrete batch. *)
Module SampleMore.

(** The executor resumes item 0 only once: its exec never completes. *)
Definition item_0_pending : World Sample.Image :=
  {| num_output_images := 3%Z;
     response_image := response_image Sample.all_succeed;
     schedule := [2; 1; 2; 0; 1]%nat;
     interval_start := 1000%Z;
     interval_end := 2500500%Z |}.

(** The items complete one after the other, in index order. *)
Definition in_index_order : World Sample.Image :=
  {| num_output_images := 3%Z;
     response_image := response_image Sample.all_succeed;
     schedule := [0; 0; 1; 1; 2; 2]%nat;
     interval_start := 1000%Z;
     interval_end := 2500500%Z |}.

(** No image is requested. *)
Definition no_outputs : World Sample.Image :=
  {| num_output_images := 0%Z;
     response_image := fun _ => None;
     schedule := [4; 0]%nat;
     interval_start := 1000%Z;
     interval_end := 1000%Z |}.

(** An encoder that refuses the image of item 1. *)
Definition refusing_png_from (img : Sample.Image)
    : PyException + Sample.Png :=
  if String.eqb img "img1" then inl (Exception "cannot encode")
  else inr ("png:" ++ img).

(** The wall clock stepped back by a quarter of a second during the batch. *)
Definition clock_stepped_back : World Sample.Image :=
  {| num_output_images := 3%Z;
     response_image := response_image Sample.all_succeed;
     schedule := [0; 0; 1; 1; 2; 2]%nat;
     interval_start := 2500500%Z;
     interval_end := 2250500%Z |}.

(** A response constructor that always raises. *)
Definition failing_render (_ : JSONResponse Sample.Png)
    : option PyException :=
  Some (Exception "not serializable").

End SampleMore.

(** ** [run_vae.py]: the command line driver of the VAE decoder

    [main] is a straight sequence of calls into torch, the dataset loader
    and the model; which calls it makes depends on the parsed options only.
    The calls are kept as data, and a call that raises ends [main] there. *)

Module RunVae.

(** The parsed options.  A path option is [None] when not given; a [Path]
    object always counts as true. *)
Record Args := {
  device : string;
  dtype : string;
  export : option string;
  bs : Z;
  inputs : option string;
  outputs : option string;
  save_intermediates_path : option string;
  compare_vs_torch : bool;
  torch_model : string;
  sharktank_config : string;
  decomp_attn : bool
}.

Inductive call : Type :=
| TorchDtype (name : string)                 (* [getattr(torch, args.dtype)] *)
| GetInputDataset                            (* [cli.get_input_dataset(args)] *)
| DatasetTo (device : string)                (* [ds.to(device=device)] *)
| FromDataset                                (* [VaeDecoderModel.from_dataset(ds)] *)
| LoadInputs (path dtype device : string) (bs : Z)
| GetRandomInputs (dtype device : string) (bs : Z) (config : string)
| SetExternalTensorTrait (external_name : string)
| ExtendDecompositions (add_ops : list string)
| NewFxProgramsBuilder
| Unsqueeze                                  (* [torch.unsqueeze(sample_inputs, 0)] *)
| ExportProgram (name : string)
| Export
| SaveMlir (path : string)
| PrintExported
| NewSaver                                   (* [SaveModuleResultTensorsPatch()] *)
| PatchChildModules
| Forward                                    (* [mdl.forward(inputs)] *)
| PrintResults
| PrintSavingOutputs (path : string)
| SaveOutputs (path : string)
| PrintSavingIntermediates (path : string)
| SaveFile (path : string)
| ImportRunTorchVae                          (* [from .diffuser_ref import run_torch_vae] *)
| RunTorchVae (model : string) (flux : bool) (dtype : string)
| PrintDiffusersResults
| AssertClose.

(** How [main] ends: it returns, a call raises, or it reads a local name
    that no statement has bound. *)
Inductive outcome : Type :=
| Returns
| Raises (e : PyException)
| UnboundLocalError (name : string).

(** How the statements of [main] end when every call returns. *)
Inductive ending : Type :=
| FallsOff
| Unbound (name : string).

(** [export_vae(model, sample_inputs, decomp_attn)], for a model whose
    parameter tensors bear the names [theta]. *)
Definition export_vae (theta : list string) (decomp_attn : bool) : list call :=
  let decomp_list :=
    if decomp_attn then
      [ "torch.ops.aten._scaled_dot_product_flash_attention_for_cpu";
        "torch.ops.aten._scaled_dot_product_flash_attention.default";
        "torch.ops.aten.scaled_dot_product_attention" ]
    else [] in
  (map SetExternalTensorTrait theta ++
   [ExtendDecompositions decomp_list; NewFxProgramsBuilder; Unsqueeze;
    ExportProgram "decode"; Export])%list.

(** The comparison against the reference model, at the end of the eager
    branch. *)
Definition compare (args : Args) : list call * ending :=
  if String.eqb (sharktank_config args) "flux" then
    ([ImportRunTorchVae; RunTorchVae (torch_model args) true (dtype args);
      PrintDiffusersResults; AssertClose], FallsOff)
  else if String.eqb (sharktank_config args) "sdxl" then
    ([ImportRunTorchVae; RunTorchVae (torch_model args) false (dtype args)],
     Unbound "diffusers_results")
  else ([ImportRunTorchVae], Unbound "diffusers_results").

(** The statements of [main] after the options are parsed.  [saver_truth]
    is the truth value of a [SaveModuleResultTensorsPatch] object. *)
Definition main_calls (theta : list string) (saver_truth : bool) (args : Args)
    : list call * ending :=
  let setup :=
    [TorchDtype (dtype args); GetInputDataset; DatasetTo (device args);
     FromDataset] in
  let load :=
    match inputs args with
    | Some path => [LoadInputs path (dtype args) (device args) (bs args)]
    | None =>
        [GetRandomInputs (dtype args) (device args) (bs args)
           (sharktank_config args)]
    end in
  match export args with
  | Some path =>
      ((setup ++ load ++ export_vae theta (decomp_attn args) ++
        [SaveMlir path; PrintExported])%list, FallsOff)
  | None =>
      let patch :=
        match save_intermediates_path args with
        | Some _ => [NewSaver; PatchChildModules]
        | None => []
        end in
      let save_outputs :=
        match outputs args with
        | Some path => [PrintSavingOutputs path; SaveOutputs path]
        | None => []
        end in
      let save_intermediates :=
        match save_intermediates_path args with
        | Some path =>
            if saver_truth then [PrintSavingIntermediates path; SaveFile path]
            else []
        | None => []
        end in
      let (compared, ended) :=
        if compare_vs_torch args then compare args else ([], FallsOff) in
      ((setup ++ load ++ patch ++ [Forward; PrintResults] ++ save_outputs ++
        save_intermediates ++ compared)%list, ended)
  end.

(** The calls are made in order up to the first one that raises. *)
Fixpoint perform (raises : call -> option PyException) (calls : list call)
    : list call * option PyException :=
  match calls with
  | [] => ([], None)
  | c :: rest =>
      match raises c with
      | Some e => ([c], Some e)
      | None =>
          let (made, raised) := perform raises rest in (c :: made, raised)
      end
  end.

(** [main(argv)], from the parsed options on: the calls made and the way it
    ends. *)
Definition main (raises : call -> option PyException) (theta : list string)
    (saver_truth : bool) (args : Args) : list call * outcome :=
  let (calls, ended) := main_calls theta saver_truth args in
  match perform raises calls with
  | (made, Some e) => (made, Raises e)
  | (made, None) =>
      (made,
       match ended with
       | FallsOff => Returns
       | Unbound name => UnboundLocalError name
       end)
  end.

(** Calls that run the model eagerly or use its results. *)
Definition is_eager (c : call) : bool :=
  match c with
  | NewSaver | PatchChildModules | Forward | PrintResults
  | PrintSavingOutputs _ | SaveOutputs _ | PrintSavingIntermediates _
  | SaveFile _ | ImportRunTorchVae | RunTorchVae _ _ _
  | PrintDiffusersResults | AssertClose => true
  | _ => false
  end.

Definition is_assert_close (c : call) : bool :=
  match c with
  | AssertClose => true
  | _ => false
  end.

Definition is_run_torch_vae (c : call) : bool :=
  match c with
  | RunTorchVae _ _ _ => true
  | _ => false
  end.

(** Options of a comparison run on the SDXL configuration. *)
Definition compare_sdxl : Args :=
  {| device := "cuda:0"; dtype := "float16"; export := None; bs := 1%Z;
     inputs := None; outputs := None; save_intermediates_path := None;
     compare_vs_torch := true;
     torch_model := "stabilityai/stable-diffusion-xl-base-1.0";
     sharktank_config := "sdxl"; decomp_attn := false |}.

(** Options of an export that also asks for outputs and a comparison. *)
Definition export_and_more : Args :=
  {| device := "cuda:0"; dtype := "float16"; export := Some "vae.mlir";
     bs := 1%Z; inputs := None; outputs := Some "out.safetensors";
     save_intermediates_path := Some "mid.safetensors";
     compare_vs_torch := true;
     torch_model := "stabilityai/stable-diffusion-xl-base-1.0";
     sharktank_config := "flux"; decomp_attn := true |}.

Definition compare_flux : Args :=
  {| device := "cuda:0"; dtype := "float16"; export := None; bs := 1%Z;
     inputs := Some "in.safetensors"; outputs := None;
     save_intermediates_path := None;
     compare_vs_torch := true;
     torch_model := "black-forest-labs/FLUX.1-dev";
     sharktank_config := "flux"; decomp_attn := false |}.

End RunVae.

(** A float that is not NaN and whose sign bit is [s] (zeros and infinities
    included). *)
Definition has_sign (s : bool) (x : PyFloat.float) : Prop :=
  match x with
  | S754_zero s' | S754_infinity s' | S754_finite s' _ _ => s' = s
  | S754_nan => False
  end.

(** * Properties *)

(** ** Text helpers *)

Lemma append_assoc (a b c : string) : (a ++ b) ++ c = a ++ (b ++ c).
Proof.
  induction a as [|ch a IH]; simpl.
  - reflexivity.
  - now rewrite IH.
Qed.

(** [Py.join] is the library's [String.concat]. *)
Lemma join_concat (sep : string) (parts : list string) :
  Py.join sep parts = String.concat sep parts.
Proof.
  induction parts as [|p [|p' rest] IH]; simpl in *;
    [reflexivity | reflexivity | now rewrite IH].
Qed.

(** The last part closes the joined text: no separator follows it. *)
Lemma join_snoc (sep : string) (parts : list string) (last : string) :
  Py.join sep (parts ++ [last])%list =
  match parts with
  | [] => last
  | _ :: _ => Py.join sep parts ++ sep ++ last
  end.
Proof.
  induction parts as [|p [|p' rest] IH].
  - reflexivity.
  - reflexivity.
  - change (Py.join sep ((p :: p' :: rest) ++ [last])%list)
      with (p ++ sep ++ Py.join sep ((p' :: rest) ++ [last])%list).
    rewrite IH.
    change (Py.join sep (p :: p' :: rest))
      with (p ++ sep ++ Py.join sep (p' :: rest)).
    now rewrite !append_assoc.
Qed.

(** ** The structured-field serializer *)

Lemma parameters_serialized (self : Py.dict HTTPStructuredField) :
  serialized (HTTPParametersField self) =
  Py.join ";"
    (map (fun each => serialized (HTTPParameterField (fst each) (snd each)))
       (Py.items self)).
Proof.
  simpl. f_equal. apply map_ext. now intros [key value].
Qed.

Lemma list_serialized (self : list HTTPStructuredField) :
  serialized (HTTPListField self) = Py.join "," (map serialized self).
Proof. reflexivity. Qed.

Lemma append_empty_r (a : string) : a ++ "" = a.
Proof.
  induction a as [|ch a IH]; simpl; [reflexivity | now rewrite IH].
Qed.

Lemma string_rev_append (a b : string) :
  string_rev (a ++ b) = string_rev b ++ string_rev a.
Proof.
  induction a as [|ch a IH]; simpl.
  - now rewrite append_empty_r.
  - now rewrite IH, append_assoc.
Qed.

(** ** The import of the module *)

(** C7.  Executed where it stands, after the class statements of the
    decimal, string and list fields, the class statement of
    [HTTPBooleanField] raises [TypeError]: [bool] is not an acceptable base
    type.  No Boolean field exists to be rendered [?1] or [?0].  The list
    half is as stated: a list is rendered as the renderings of its items
    joined by commas, and the rendering of the last item ends the text. *)
Theorem boolean_field_class_refused :
  PyModule.execute_statement
    (fst (PyModule.execute PyModule.imported (firstn 9 PyModule.generate)))
    (PyModule.Class "HTTPBooleanField" ["HTTPStructuredField"; "bool"])
  = inl (PyModule.TypeError "type 'bool' is not an acceptable base type")
  /\ nth_error PyModule.generate 9
     = Some (PyModule.Class "HTTPBooleanField" ["HTTPStructuredField"; "bool"])
  /\ snd (PyModule.execute PyModule.imported (firstn 9 PyModule.generate))
     = None
  /\ (forall items : list HTTPStructuredField,
        serialized (HTTPListField items) =
        String.concat "," (map serialized items))
  /\ (forall (items : list HTTPStructuredField) (last : HTTPStructuredField),
        serialized (HTTPListField (items ++ [last])%list) =
        match items with
        | [] => serialized last
        | _ :: _ => serialized (HTTPListField items) ++ "," ++ serialized last
        end).
Proof.
  split; [vm_compute; reflexivity |].
  split; [reflexivity |].
  split; [vm_compute; reflexivity |].
  split.
  - intros items. rewrite list_serialized. apply join_concat.
  - intros items last. rewrite !list_serialized, map_app.
    cbn [map]. rewrite join_snoc. now destruct items.
Qed.

(** C5.  The import of the module ends on that [TypeError]: the names bound
    are those of the statements before it, and neither [HTTPBooleanField]
    nor the classes after it, [HTTPParameterField] among them, are ever
    bound.  No parameter holding a Boolean true is rendered as its bare
    key. *)
Theorem import_stops_at_boolean_field :
  PyModule.import_generate
  = ((PyModule.imported ++
      ["GenerateImageProcess"; "MetricPrefix"; "seconds_from";
       "milliseconds_from"; "ServerTimingMetric"; "HTTPStructuredField";
       "HTTPDecimalField"; "HTTPStringField"; "HTTPListField"])%list,
     Some (PyModule.TypeError "type 'bool' is not an acceptable base type"))
  /\ PyModule.bound "HTTPBooleanField" (fst PyModule.import_generate) = false
  /\ PyModule.bound "HTTPParameterField" (fst PyModule.import_generate) = false
  /\ PyModule.bound "HTTPParametersField" (fst PyModule.import_generate)
     = false.
Proof.
  repeat split; vm_compute; reflexivity.
Qed.

(** C8.  No class statement that lists [bool] among its bases is accepted,
    whatever else it lists and whatever names are bound: the tag
    [HTTPBooleanField(True)] of the three parameter sets of the header is a
    value of a class that cannot be created, so no header text with such
    tags is built. *)
Theorem boolean_tag_never_built (names bases : list string) :
  In "bool" bases ->
  PyModule.check_bases names bases <> None.
Proof.
  induction bases as [|b rest IH]; intros Hin.
  - contradiction.
  - cbn [PyModule.check_bases].
    destruct (PyModule.bound b names); cbn [negb]; [| discriminate].
    destruct Hin as [Hb | Hin].
    + subst b. vm_compute. discriminate.
    + destruct (PyModule.bound b PyModule.final_types); [discriminate |].
      now apply IH.
Qed.

Lemma boolean_tag_never_built_witness :
  PyModule.check_bases PyModule.imported ["Protocol"; "bool"] <> None.
Proof.
  apply (boolean_tag_never_built PyModule.imported ["Protocol"; "bool"]).
  simpl. auto.
Defined.

(** ** Decimals and parameter sets *)

Lemma pre_processing_shape (tag : HTTPStructuredField) :
  serialized (HTTPParametersField_of (pre_processing_entries tag))
  = serialized (HTTPParameterField "pre" tag) ++
    (";desc=" ++ Py.dquote ++ "Batch Pre-processing" ++ Py.dquote ++
     ";dur=0.0").
Proof.
  change (HTTPParametersField_of (pre_processing_entries tag))
    with (HTTPParametersField (pre_processing_entries tag)).
  rewrite parameters_serialized. reflexivity.
Qed.



(** ** [ServerTimingMetric] against the structured fields *)

Lemma metric_shape (tag : HTTPStructuredField) :
  serialized
    (HTTPParametersField_of
       (metric_entries "infer" tag "Batch Inference" (PyFloat.of_int 12)))
  = serialized (HTTPParameterField "infer" tag) ++
    (";desc=" ++ Py.dquote ++ "Batch Inference" ++ Py.dquote ++ ";dur=12.0").
Proof.
  change (HTTPParametersField_of
            (metric_entries "infer" tag "Batch Inference" (PyFloat.of_int 12)))
    with (HTTPParametersField
            (metric_entries "infer" tag "Batch Inference" (PyFloat.of_int 12))).
  rewrite parameters_serialized. reflexivity.
Qed.



(** ** The item processes under the executor *)

Section ItemProcesses.
Local Open Scope list_scope.

Variable Image : Type.
Variable truth : Image -> bool.
Variable w : World Image.

Lemma resume_index_same (p : GenerateImageProcess Image) :
  index (fst (resume truth w p)) = index p.
Proof. unfold resume. now destruct (at_stage p). Qed.

Lemma resume_steps_left (p : GenerateImageProcess Image) :
  steps_left (fst (resume truth w p)) = pred (steps_left p).
Proof.
  unfold resume, steps_left.
  destruct (at_stage p) eqn:Hstage; simpl; rewrite ?Hstage; reflexivity.
Qed.

Lemma event_loop_settle (schedule : list nat) :
  forall gen_processes,
    fst (event_loop truth w schedule gen_processes) =
    map (settle truth w schedule) gen_processes.
Proof.
  induction schedule as [|i rest IH]; intros gen_processes; simpl.
  - now rewrite map_id.
  - specialize (IH (map (fun p => if Nat.eqb (index p) i
                                  then fst (resume truth w p) else p)
                        gen_processes)).
    destruct (event_loop truth w rest _) as [final evs'].
    simpl in *. rewrite IH, map_map. reflexivity.
Qed.

Lemma settle_index (schedule : list nat) :
  forall p, index (settle truth w schedule p) = index p.
Proof.
  induction schedule as [|i rest IH]; intros p; simpl.
  - reflexivity.
  - rewrite IH. destruct (Nat.eqb (index p) i).
    + apply resume_index_same.
    + reflexivity.
Qed.

Lemma settle_steps_left (schedule : list nat) :
  forall p,
    steps_left (settle truth w schedule p) =
    steps_left p - count_occ Nat.eq_dec schedule (index p).
Proof.
  induction schedule as [|i rest IH]; intros p; simpl.
  - lia.
  - rewrite IH. destruct (Nat.eqb_spec (index p) i) as [Heq | Hne].
    + rewrite resume_index_same, resume_steps_left.
      destruct (Nat.eq_dec i (index p)); [lia | congruence].
    + destruct (Nat.eq_dec i (index p)); [congruence | lia].
Qed.

Lemma settle_finished (schedule : list nat) :
  forall p, at_stage p = Finished -> settle truth w schedule p = p.
Proof.
  induction schedule as [|i rest IH]; intros p Hp; simpl.
  - reflexivity.
  - destruct (Nat.eqb (index p) i).
    + unfold resume. rewrite Hp. simpl. now apply IH.
    + now apply IH.
Qed.

(** A process that starts unfinished and ends finished holds exactly what
    the conditional expression makes of its exec's response image. *)
Lemma settle_output (schedule : list nat) :
  forall p,
    at_stage p <> Finished ->
    at_stage (settle truth w schedule p) = Finished ->
    output (settle truth w schedule p) =
    output_from truth (response_image w (index p)).
Proof.
  induction schedule as [|i rest IH]; intros p Hp Hfin; simpl in *.
  - contradiction.
  - destruct (Nat.eqb (index p) i); [| now apply IH].
    unfold resume in *.
    destruct (at_stage p) eqn:Hstage; simpl in *.
    + now apply (IH {| index := index p; output := output p;
                       at_stage := Awaiting |}).
    + now rewrite settle_finished.
    + contradiction.
Qed.

(** ... and the executor recorded its completion while doing so. *)
Lemma event_loop_done (schedule : list nat) :
  forall gen_processes p,
    In p gen_processes ->
    at_stage p <> Finished ->
    at_stage (settle truth w schedule p) = Finished ->
    In (EvDone (index p)) (snd (event_loop truth w schedule gen_processes)).
Proof.
  induction schedule as [|i rest IH];
    intros gen_processes p Hin Hp Hfin; simpl in *.
  - contradiction.
  - set (step := fun q : GenerateImageProcess Image =>
                   if Nat.eqb (index q) i then fst (resume truth w q) else q)
      in *.
    assert (Hstep : In (step p) (map step gen_processes))
      by now apply in_map.
    specialize (IH (map step gen_processes) (step p) Hstep).
    destruct (event_loop truth w rest (map step gen_processes))
      as [final evs'].
    simpl in *. apply in_or_app.
    subst step. simpl in *.
    destruct (Nat.eqb (index p) i) eqn:Hi.
    + unfold resume in *.
      destruct (at_stage p) eqn:Hstage; simpl in *.
      * right. apply IH; [discriminate | assumption].
      * left. apply in_flat_map. exists p. split; [assumption |].
        rewrite Hi. unfold resume. rewrite Hstage. now left.
      * contradiction.
    + right. now apply IH.
Qed.

(** While the batch process is suspended nothing past the join happens. *)
Lemma event_loop_before_join (schedule : list nat) :
  forall gen_processes,
    Forall (fun e => past_join e = false)
      (snd (event_loop truth w schedule gen_processes)).
Proof.
  induction schedule as [|i rest IH]; intros gen_processes; simpl.
  - constructor.
  - specialize (IH (map (fun p => if Nat.eqb (index p) i
                                  then fst (resume truth w p) else p)
                        gen_processes)).
    destruct (event_loop truth w rest _) as [final evs'].
    simpl in *. apply Forall_app. split; [| assumption].
    apply Forall_forall. intros e He.
    apply in_flat_map in He. destruct He as [p [_ He]].
    destruct (Nat.eqb (index p) i); [| contradiction].
    unfold resume in He.
    destruct (at_stage p); simpl in He;
      try (destruct He as [<- | []]; reflexivity); contradiction.
Qed.

End ItemProcesses.

(** ** The batch process *)

Section BatchProcess.
Local Open Scope list_scope.

Variable Image : Type.
Variable truth : Image -> bool.
Variable Png : Type.
Variable png_from : Image -> PyException + Png.
Variable render_fault : JSONResponse Png -> option PyException.

Implicit Types (w : World Image) (responder : FastAPIResponder Png).

(** *** The join *)

Lemma in_range (n : Z) (i : nat) : In i (Py.range n) <-> i < Z.to_nat n.
Proof. unfold Py.range. rewrite in_seq. lia. Qed.

Lemma join_unfold w :
  join truth w =
  (map (fun i => settle truth w (schedule w) (new_GenerateImageProcess i))
     (Py.range (num_output_images w)),
   forallb is_finished
     (map (fun i => settle truth w (schedule w) (new_GenerateImageProcess i))
        (Py.range (num_output_images w))),
   map EvLaunch (Py.range (num_output_images w)) ++
   snd (event_loop truth w (schedule w)
          (map new_GenerateImageProcess (Py.range (num_output_images w))))).
Proof.
  unfold join, launch_all.
  pose proof (event_loop_settle Image truth w (schedule w)
                (map new_GenerateImageProcess
                   (Py.range (num_output_images w)))) as Hfst.
  destruct (event_loop truth w (schedule w) _) as [final resumed].
  simpl in *. subst final. now rewrite map_map.
Qed.

Lemma join_before w final resolved joined :
  join truth w = (final, resolved, joined) ->
  Forall (fun e => past_join e = false) joined.
Proof.
  rewrite join_unfold. intros H. injection H as _ _ <-.
  apply Forall_app. split.
  - apply Forall_forall. intros e He.
    apply in_map_iff in He. now destruct He as [i [<- _]].
  - apply event_loop_before_join.
Qed.

Lemma join_launched w final resolved joined i :
  join truth w = (final, resolved, joined) ->
  i < Z.to_nat (num_output_images w) ->
  In (EvLaunch i) joined.
Proof.
  rewrite join_unfold. intros H Hi. injection H as _ _ <-.
  apply in_or_app. left. apply in_map. now apply in_range.
Qed.

Lemma finished_stage (p : GenerateImageProcess Image) :
  is_finished p = true -> at_stage p = Finished.
Proof. unfold is_finished. now destruct (at_stage p). Qed.

(** Once the gather resolved, every process of the batch ran to its end,
    its completion is on record, and the list holds the processes in
    index order, each with the output made from its own exec. *)
Lemma join_resolved w final joined :
  join truth w = (final, true, joined) ->
  final = map (finished_process truth w) (Py.range (num_output_images w))
  /\ forall i, i < Z.to_nat (num_output_images w) -> In (EvDone i) joined.
Proof.
  rewrite join_unfold. intros H. injection H as <- Hall <-.
  rewrite forallb_forall in Hall.
  assert (Hfin : forall i, In i (Py.range (num_output_images w)) ->
            at_stage (settle truth w (schedule w)
                        (new_GenerateImageProcess i)) = Finished).
  { intros i Hi. apply finished_stage, Hall.
    apply in_map_iff. now exists i. }
  split.
  - apply map_ext_in. intros i Hi. specialize (Hfin i Hi).
    pose proof (settle_index Image truth w (schedule w)
                  (new_GenerateImageProcess i)) as Hidx.
    pose proof (settle_output Image truth w (schedule w)
                  (new_GenerateImageProcess i)) as Hout.
    simpl in Hidx, Hout. specialize (Hout ltac:(discriminate) Hfin).
    destruct (settle truth w (schedule w) (new_GenerateImageProcess i))
      as [idx out stg].
    simpl in *. unfold finished_process. now subst.
  - intros i Hi. apply in_or_app. right.
    apply (event_loop_done Image truth w (schedule w)
             (map new_GenerateImageProcess (Py.range (num_output_images w)))
             (new_GenerateImageProcess i)).
    + apply in_map. now apply in_range.
    + discriminate.
    + apply Hfin. now apply in_range.
Qed.

(** A complete schedule resolves the gather. *)
Lemma join_complete w :
  complete_schedule w -> snd (fst (join truth w)) = true.
Proof.
  intros Hcomplete. rewrite join_unfold. simpl.
  apply forallb_forall. intros p Hp.
  apply in_map_iff in Hp. destruct Hp as [i [<- Hi]].
  apply in_range in Hi. specialize (Hcomplete i Hi).
  pose proof (settle_steps_left Image truth w (schedule w)
                (new_GenerateImageProcess i)) as Hsteps.
  change (steps_left (new_GenerateImageProcess i)) with 2 in Hsteps.
  change (index (@new_GenerateImageProcess Image i)) with i in Hsteps.
  assert (Hzero : steps_left (settle truth w (schedule w)
                               (new_GenerateImageProcess i)) = 0) by lia.
  unfold steps_left in Hzero. unfold is_finished.
  now destruct (at_stage (settle truth w (schedule w)
                            (new_GenerateImageProcess i))).
Qed.

(** *** Assembly *)

Lemma enumerate_map_seq {A : Type} (f : nat -> A) (n : nat) :
  Py.enumerate (map f (seq 0 n)) = map (fun i => (i, f i)) (seq 0 n).
Proof.
  unfold Py.enumerate. rewrite length_map, length_seq.
  generalize 0 as a. induction n as [|n IH]; intros a; simpl.
  - reflexivity.
  - now rewrite IH.
Qed.

Lemma assemble_events each :
  forall png_images,
    Forall (fun e => is_send e = false /\ is_ensure e = false)
      (snd (assemble png_from each png_images)).
Proof.
  induction each as [|[i p] rest IH]; intros png_images; simpl.
  - constructor.
  - destruct (output p) as [out|]; [| repeat constructor].
    destruct (png_from (image out)) as [e | png]; [repeat constructor |].
    specialize (IH (png_images ++ [png])).
    destruct (assemble png_from rest (png_images ++ [png])) as [result evs].
    simpl in *. constructor; [now split | assumption].
Qed.

Lemma assemble_inr each :
  forall png_images all_images,
    fst (assemble png_from each png_images) = inr all_images ->
    exists pngs,
      all_images = png_images ++ pngs /\ Forall2 (encodes png_from) each pngs.
Proof.
  induction each as [|[i p] rest IH]; intros png_images all_images; simpl.
  - intros [= <-]. exists []. split; [now rewrite app_nil_r | constructor].
  - destruct (output p) as [out|] eqn:Hout; [| discriminate].
    destruct (png_from (image out)) as [e | png] eqn:Hpng; [discriminate |].
    specialize (IH (png_images ++ [png]) all_images).
    destruct (assemble png_from rest (png_images ++ [png])) as [result evs].
    simpl in *. intros Hresult.
    destruct (IH Hresult) as [pngs [-> Hall]].
    exists (png :: pngs). split.
    + now rewrite <- app_assoc.
    + constructor; [| assumption]. exists out. simpl. now split.
Qed.

Lemma assemble_missing each :
  forall png_images ip,
    In ip each -> output (snd ip) = None ->
    exists e, fst (assemble png_from each png_images) = inl e.
Proof.
  induction each as [|[i p] rest IH]; intros png_images ip Hin Hnone;
    simpl in *.
  - contradiction.
  - destruct (output p) as [out|] eqn:Hout; [| eexists; reflexivity].
    destruct (png_from (image out)) as [e | png]; [eexists; reflexivity |].
    destruct Hin as [<- | Hin]; [simpl in Hnone; congruence |].
    specialize (IH (png_images ++ [png]) ip Hin Hnone).
    destruct (assemble png_from rest (png_images ++ [png])) as [result evs].
    exact IH.
Qed.

Lemma assemble_first_missing earlier :
  forall png_images j p later,
    Forall (fun each => exists png, encodes png_from each png) earlier ->
    output p = None ->
    fst (assemble png_from (earlier ++ (j, p) :: later) png_images) =
    inl (missing_output j).
Proof.
  induction earlier as [|[i q] rest IH];
    intros png_images j p later Hearlier Hnone; simpl.
  - now rewrite Hnone.
  - inversion Hearlier as [|? ? Hhead Hrest]; subst.
    destruct Hhead as [png [out [Hout Hpng]]].
    simpl in Hout. rewrite Hout, Hpng.
    specialize (IH (png_images ++ [png]) j p later Hrest Hnone).
    destruct (assemble png_from (rest ++ (j, p) :: later)
                (png_images ++ [png])) as [result evs].
    exact IH.
Qed.

Lemma assemble_all each :
  forall png_images pngs,
    Forall2 (encodes png_from) each pngs ->
    fst (assemble png_from each png_images) = inr (png_images ++ pngs).
Proof.
  induction each as [|[i p] rest IH]; intros png_images pngs Hall;
    inversion Hall as [|? png ? pngs' Hhead Hrest]; subst; simpl.
  - now rewrite app_nil_r.
  - destruct Hhead as [out [Hout Hpng]].
    simpl in Hout. rewrite Hout, Hpng.
    specialize (IH (png_images ++ [png]) pngs' Hrest).
    destruct (assemble png_from rest (png_images ++ [png])) as [result evs].
    simpl in *. now rewrite IH, <- app_assoc.
Qed.

(** *** The [try] block and the [finally] clause *)

(** The three ways the rest of the [try] block can go. *)
Lemma respond_cases w gen_processes responder c responder' evs :
  respond png_from render_fault w gen_processes responder
    = (c, responder', evs) ->
  let assembled := assemble png_from (Py.enumerate gen_processes) [] in
  (exists e, fst assembled = inl e /\ c = Raised e
             /\ responder' = responder /\ evs = snd assembled)
  \/ (exists png_images e,
        fst assembled = inr png_images
        /\ render_fault (success_response w png_images) = Some e
        /\ c = Raised e /\ responder' = responder /\ evs = snd assembled)
  \/ (exists png_images,
        fst assembled = inr png_images
        /\ render_fault (success_response w png_images) = None
        /\ c = Returned
        /\ responder' =
           send_response (Success (success_response w png_images)) responder
        /\ evs = snd assembled ++ [EvSendResponse]).
Proof.
  unfold respond, new_JSONResponse. cbv zeta.
  destruct (assemble png_from (Py.enumerate gen_processes) [])
    as [[e | png_images] aevs]; simpl.
  - intros [= <- <- <-]. left. eauto.
  - change (Build_JSONResponse Png (Py.dict_of [("images", png_images)]) _ _)
      with (success_response w png_images).
    destruct (render_fault (success_response w png_images)) as [e|] eqn:Hr.
    + intros [= <- <- <-]. right. left. exists png_images, e. auto.
    + intros [= <- <- <-]. right. right. exists png_images. auto.
Qed.

(** [run] is the join, then either nothing more (the gather never
    resolves) or the rest of the [try] block followed by exactly one
    [ensure_response]. *)
Lemma run_cases w responder c responder' evs :
  run truth png_from render_fault w responder = (c, responder', evs) ->
  exists final resolved joined,
    join truth w = (final, resolved, joined)
    /\ ((resolved = false /\ c = Suspended
         /\ responder' = responder /\ evs = joined)
        \/ (resolved = true /\ c <> Suspended
            /\ exists r0 evs0,
                 respond png_from render_fault w final responder
                   = (c, r0, evs0)
                 /\ responder' = ensure_response r0
                 /\ evs = (joined ++ evs0) ++ [EvEnsureResponse])).
Proof.
  intros Hrun. unfold run, try_block in Hrun.
  destruct (join truth w) as [[final resolved] joined].
  exists final, resolved, joined. split; [reflexivity |].
  destruct resolved.
  - destruct (respond png_from render_fault w final responder)
      as [[c0 r0] evs0] eqn:Hrespond.
    right. split; [reflexivity |].
    pose proof (respond_cases _ _ _ _ _ _ Hrespond) as Hcases.
    assert (Hc0 : c0 <> Suspended).
    { destruct Hcases as [[e [_ [-> _]]] | [[p [e [_ [_ [-> _]]]]] |
                          [p [_ [_ [-> _]]]]]]; discriminate. }
    destruct c0; [ | | contradiction ];
      injection Hrun as <- <- <-; (split; [assumption |]); eauto.
  - injection Hrun as <- <- <-. left. auto.
Qed.

(** *** Outcomes of [run] *)

Lemma filter_none {A : Type} (f : A -> bool) (l : list A) :
  Forall (fun x => f x = false) l -> filter f l = [].
Proof.
  induction 1 as [|x l Hx _ IH]; simpl; [reflexivity | now rewrite Hx].
Qed.

(** An event with a property that no event of [l1] has lies, in [l1 ++ l2],
    after the whole of [l1]. *)
Lemma split_after {A : Type} (P : A -> bool) (l1 l2 before after : list A)
    (x : A) :
  Forall (fun y => P y = false) l1 ->
  P x = true ->
  l1 ++ l2 = before ++ x :: after ->
  exists mid, before = l1 ++ mid.
Proof.
  intros Hl1. revert before.
  induction Hl1 as [|y l1 Hy _ IH]; intros before Hx Heq.
  - now exists before.
  - destruct before as [|b before]; simpl in Heq.
    + injection Heq as -> _. congruence.
    + injection Heq as -> Heq.
      destruct (IH before Hx Heq) as [mid ->]. now exists mid.
Qed.

Lemma ensure_fresh responder :
  responded responder = false ->
  ensure_response responder = send_response Failure responder.
Proof.
  unfold ensure_response. now intros ->.
Qed.

(** A run whose gather never resolves leaves the responder untouched and
    never gets past the join. *)
Lemma run_suspended w responder responder' evs :
  run truth png_from render_fault w responder
    = (Suspended, responder', evs) ->
  responder' = responder /\ Forall (fun e => past_join e = false) evs.
Proof.
  intros Hrun.
  destruct (run_cases _ _ _ _ _ Hrun)
    as [final [resolved [joined [Hjoin [[_ [_ [-> ->]]] | [_ [Hc _]]]]]]].
  - split; [reflexivity |]. eapply join_before; eassumption.
  - contradiction.
Qed.

(** A run that ends went through the join, assembled from the finished
    processes in index order, and either failed (no response sent by the
    [try] block) or sent the success response; then the [finally] clause
    ran [ensure_response]. *)
Lemma run_outcomes w responder c responder' evs :
  run truth png_from render_fault w responder = (c, responder', evs) ->
  c <> Suspended ->
  let assembled := assemble png_from (finished_batch truth w) [] in
  exists joined,
    Forall (fun e => past_join e = false) joined
    /\ (forall i, i < Z.to_nat (num_output_images w) ->
                  In (EvLaunch i) joined /\ In (EvDone i) joined)
    /\ ((exists e,
           c = Raised e
           /\ (fst assembled = inl e
               \/ exists png_images,
                    fst assembled = inr png_images
                    /\ render_fault (success_response w png_images) = Some e)
           /\ responder' = ensure_response responder
           /\ evs = (joined ++ snd assembled) ++ [EvEnsureResponse])
        \/ (exists png_images,
              c = Returned
              /\ fst assembled = inr png_images
              /\ render_fault (success_response w png_images) = None
              /\ responder' =
                 send_response (Success (success_response w png_images))
                   responder
              /\ evs = (joined ++ snd assembled ++ [EvSendResponse])
                       ++ [EvEnsureResponse])).
Proof.
  intros Hrun Hc.
  destruct (run_cases _ _ _ _ _ Hrun)
    as [final [resolved [joined [Hjoin [[_ [-> _]] |
          [-> [_ [r0 [evs0 [Hrespond [-> ->]]]]]]]]]]];
    [contradiction |].
  destruct (join_resolved _ _ _ Hjoin) as [-> Hdone].
  exists joined. split; [eapply join_before; eassumption |].
  split.
  { intros i Hi. split; [eapply join_launched; eassumption | auto]. }
  apply respond_cases in Hrespond.
  unfold Py.range in Hrespond. rewrite enumerate_map_seq in Hrespond.
  fold (Py.range (num_output_images w)) in Hrespond.
  fold (finished_batch truth w) in Hrespond. cbv zeta in Hrespond.
  destruct Hrespond as [[e [Ha [-> [-> ->]]]] |
                        [[pngs [e [Ha [Hr [-> [-> ->]]]]]] |
                         [pngs [Ha [Hr [-> [-> ->]]]]]]].
  - left. exists e. auto.
  - left. exists e. repeat split; eauto.
  - right. exists pngs. repeat split; auto.
Qed.

Lemma finished_encodes w i png :
  encodes png_from (i, finished_process truth w i) png <->
  item_encodes truth png_from w i png.
Proof.
  unfold encodes, item_encodes, finished_process, output_from. simpl.
  split.
  - intros [out [Hout Hpng]].
    destruct (response_image w i) as [img|]; [| discriminate].
    destruct (truth img) eqn:Htruth; [| discriminate].
    injection Hout as <-. exists img. auto.
  - intros [img [-> [-> Hpng]]]. now exists {| image := img |}.
Qed.

Lemma Forall2_seq_nth {B : Type}
    (f : nat -> nat * GenerateImageProcess Image)
    (Q : nat * GenerateImageProcess Image -> B -> Prop) (n : nat) :
  forall a l,
    Forall2 Q (map f (seq a n)) l ->
    List.length l = n
    /\ forall i, i < n -> exists y, nth_error l i = Some y /\ Q (f (a + i)) y.
Proof.
  induction n as [|n IH]; intros a l Hall; simpl in Hall;
    inversion Hall as [|? y ? l' Hhead Hrest]; subst.
  - split; [reflexivity | lia].
  - destruct (IH (S a) l' Hrest) as [Hlen Hnth]. split.
    + simpl. now rewrite Hlen.
    + intros [|i] Hi; simpl.
      * exists y. now rewrite Nat.add_0_r.
      * destruct (Hnth i ltac:(lia)) as [y' [Hy' HQ]].
        exists y'. split; [assumption |].
        now replace (a + S i) with (S a + i) by lia.
Qed.

Lemma Forall2_choose {A B : Type} (R : A -> B -> Prop) (l : list A) :
  (forall x, In x l -> exists y, R x y) -> exists l', Forall2 R l l'.
Proof.
  induction l as [|x l IH]; intros Hex.
  - exists []. constructor.
  - destruct (Hex x (or_introl eq_refl)) as [y Hy].
    destruct IH as [l' Hl']; [intros; apply Hex; now right |].
    exists (y :: l'). now constructor.
Qed.

(** *** [ClientGenerateBatchProcess.run] *)

(** C1.  A run under a complete schedule ends; and every run that ends,
    whatever the try block did (sent the success response, met a missing
    output, or had the encoder or the response constructor raise),
    executed [ensure_response] exactly once, as its last step, and left
    exactly one more response in the sink than it found: the success
    response when it returned, a failure response when it raised. *)
Theorem run_ensures_response_once w responder c responder' evs :
  run truth png_from render_fault w responder = (c, responder', evs) ->
  responded responder = false ->
  (complete_schedule w -> c <> Suspended)
  /\ (c <> Suspended ->
      List.length (filter is_ensure evs) = 1
      /\ (exists before, evs = before ++ [EvEnsureResponse])
      /\ responded responder' = true
      /\ exists one,
           sink responder' = sink responder ++ [one]
           /\ (c = Returned -> exists response, one = Success response)
           /\ (forall e, c = Raised e -> one = Failure)).
Proof.
  intros Hrun Hfresh. split.
  - intros Hcomplete ->.
    destruct (run_cases _ _ _ _ _ Hrun)
      as [final [resolved [joined [Hjoin [[-> _] | [_ [Hc _]]]]]]];
      [| contradiction].
    pose proof (join_complete w Hcomplete) as Hresolved.
    rewrite Hjoin in Hresolved. discriminate.
  - intros Hc.
    destruct (run_outcomes _ _ _ _ _ Hrun Hc)
      as [joined [Hbefore [_ [[e [-> [_ [-> ->]]]] |
                              [pngs [-> [_ [_ [-> ->]]]]]]]]].
    + split; [| split; [eauto | split]].
      * rewrite !filter_app. simpl.
        rewrite 2 filter_none; [reflexivity | |].
        -- eapply Forall_impl; [| apply assemble_events]. now intros a [_ ?].
        -- eapply Forall_impl; [| exact Hbefore]. now intros [].
      * now rewrite ensure_fresh.
      * exists Failure. rewrite ensure_fresh by assumption. simpl.
        split; [reflexivity | split; [discriminate | reflexivity]].
    + split; [| split; [eauto | split]].
      * rewrite !filter_app. simpl.
        rewrite 2 filter_none; [reflexivity | |].
        -- eapply Forall_impl; [| apply assemble_events]. now intros a [_ ?].
        -- eapply Forall_impl; [| exact Hbefore]. now intros [].
      * reflexivity.
      * exists (Success (success_response w pngs)). simpl.
        split; [reflexivity | split; [eauto | discriminate]].
Qed.


(** C3.  In every run, every event past the join (an output inspection,
    the sending of the response, the call of [ensure_response]) comes
    after the launch and after the completion of each of the item
    processes of the batch. *)
Theorem join_precedes_assembly w responder c responder' evs :
  run truth png_from render_fault w responder = (c, responder', evs) ->
  forall before e after,
    evs = before ++ e :: after ->
    past_join e = true ->
    forall i, i < Z.to_nat (num_output_images w) ->
      In (EvLaunch i) before /\ In (EvDone i) before.
Proof.
  intros Hrun before e after Hevs He i Hi.
  destruct c as [| exc |].
  3: { apply run_suspended in Hrun. destruct Hrun as [_ Hnone].
       rewrite Forall_forall in Hnone.
       specialize (Hnone e). rewrite Hevs in Hnone.
       rewrite Hnone in He; [discriminate |].
       apply in_or_app. right. now left. }
  all: destruct (run_outcomes _ _ _ _ _ Hrun ltac:(discriminate))
      as [joined [Hbefore [Hjoined [[exc' [_ [_ [_ Htrace]]]] |
                                    [pngs [_ [_ [_ [_ Htrace]]]]]]]]];
    rewrite Hevs, <- ?app_assoc in Htrace;
    symmetry in Htrace;
    destruct (split_after past_join _ _ _ _ _ Hbefore He Htrace)
      as [mid ->];
    destruct (Hjoined i Hi) as [Hlaunch Hdone];
    split; apply in_or_app; now left.
Qed.

(** A finished batch with an empty output slot makes the run raise, with
    nothing sent by the try block and the failure response delivered by
    [ensure_response]. *)
Lemma run_missing_output w responder c responder' evs i :
  run truth png_from render_fault w responder = (c, responder', evs) ->
  responded responder = false ->
  c <> Suspended ->
  i < Z.to_nat (num_output_images w) ->
  output_from truth (response_image w i) = None ->
  (exists e, c = Raised e
             /\ fst (assemble png_from (finished_batch truth w) []) = inl e)
  /\ sink responder' = sink responder ++ [Failure]
  /\ filter is_send evs = [].
Proof.
  intros Hrun Hfresh Hc Hi Hnone.
  destruct (assemble_missing (finished_batch truth w) []
              (i, finished_process truth w i)) as [e0 He0].
  { unfold finished_batch.
    apply (in_map (fun i => (i, finished_process truth w i))).
    now apply in_range. }
  { exact Hnone. }
  destruct (run_outcomes _ _ _ _ _ Hrun Hc)
    as [joined [Hbefore [_ [[e [-> [Hfail [-> ->]]]] |
                            [pngs [_ [Ha _]]]]]]]; [| congruence].
  destruct Hfail as [Hfail | [pngs [Ha _]]]; [| congruence].
  split; [eauto | split].
  - now rewrite ensure_fresh.
  - rewrite !filter_app. simpl.
    rewrite 2 filter_none; [reflexivity | |].
    + eapply Forall_impl; [| apply assemble_events]. now intros a [? _].
    + eapply Forall_impl; [| exact Hbefore]. now intros [].
Qed.

Lemma finished_batch_split w j :
  j < Z.to_nat (num_output_images w) ->
  finished_batch truth w =
  map (fun i => (i, finished_process truth w i)) (seq 0 j) ++
  (j, finished_process truth w j) ::
  map (fun i => (i, finished_process truth w i))
    (seq (S j) (Z.to_nat (num_output_images w) - S j)).
Proof.
  intros Hj. unfold finished_batch, Py.range.
  replace (Z.to_nat (num_output_images w))
    with (j + S (Z.to_nat (num_output_images w) - S j)) at 1 by lia.
  rewrite seq_app, map_app. reflexivity.
Qed.

(** Under a complete schedule the run gets past its gather. *)
Lemma run_complete w responder c responder' evs :
  run truth png_from render_fault w responder = (c, responder', evs) ->
  complete_schedule w ->
  c <> Suspended.
Proof.
  intros Hrun Hcomplete.
  destruct (run_cases _ _ _ _ _ Hrun)
    as [final [resolved [joined [Hjoin [[Hres _] | [_ [Hc _]]]]]]];
    [| exact Hc].
  pose proof (join_complete w Hcomplete) as Hresolved.
  rewrite Hjoin in Hresolved. simpl in Hresolved. congruence.
Qed.

(** With an empty output slot in the batch, no run, ended or not, returns
    or sends: the sink is as it was, or has the failure response more. *)
Lemma run_never_succeeds w responder c responder' evs i :
  run truth png_from render_fault w responder = (c, responder', evs) ->
  responded responder = false ->
  i < Z.to_nat (num_output_images w) ->
  output_from truth (response_image w i) = None ->
  c <> Returned
  /\ filter is_send evs = []
  /\ (sink responder' = sink responder
      \/ sink responder' = sink responder ++ [Failure])%list.
Proof.
  intros Hrun Hfresh Hi Hnone.
  destruct c as [| e |].
  - destruct (run_missing_output _ _ _ _ _ _ Hrun Hfresh
                ltac:(discriminate) Hi Hnone) as [[e [[=] _]] _].
  - destruct (run_missing_output _ _ _ _ _ _ Hrun Hfresh
                ltac:(discriminate) Hi Hnone) as [_ [Hsink Hsend]].
    split; [discriminate | split; [exact Hsend | now right]].
  - destruct (run_suspended _ _ _ _ Hrun) as [-> Hbefore].
    split; [discriminate | split; [| now left]].
    apply filter_none. eapply Forall_impl; [| exact Hbefore]. now intros [].
Qed.

(** Two batches that agree on everything but the image objects, and whose
    item processes store the same outputs, run alike. *)
Lemma resume_ext w1 w2 (p : GenerateImageProcess Image) :
  (forall k, output_from truth (response_image w1 k)
             = output_from truth (response_image w2 k)) ->
  resume truth w1 p = resume truth w2 p.
Proof.
  intros Hout. unfold resume. now rewrite Hout.
Qed.

Lemma event_loop_ext w1 w2 (schedule : list nat) :
  (forall k, output_from truth (response_image w1 k)
             = output_from truth (response_image w2 k)) ->
  forall gen_processes,
    event_loop truth w1 schedule gen_processes
    = event_loop truth w2 schedule gen_processes.
Proof.
  intros Hout. induction schedule as [|i rest IH]; intros gen_processes.
  - reflexivity.
  - assert (Hstep : resume_index truth w1 i gen_processes
                    = resume_index truth w2 i gen_processes).
    { unfold resume_index. f_equal.
      - apply map_ext. intros p. now rewrite (resume_ext w1 w2 p Hout).
      - apply flat_map_ext. intros p. now rewrite (resume_ext w1 w2 p Hout). }
    cbn [event_loop]. rewrite Hstep.
    destruct (resume_index truth w2 i gen_processes) as [resumed evs].
    now rewrite IH.
Qed.

Lemma run_ext w1 w2 responder :
  num_output_images w1 = num_output_images w2 ->
  schedule w1 = schedule w2 ->
  interval_start w1 = interval_start w2 ->
  interval_end w1 = interval_end w2 ->
  (forall k, output_from truth (response_image w1 k)
             = output_from truth (response_image w2 k)) ->
  run truth png_from render_fault w1 responder
  = run truth png_from render_fault w2 responder.
Proof.
  intros Hn Hs Ha Hb Hout.
  unfold run, try_block, join, launch_all, respond,
    batch_duration_in_milliseconds.
  rewrite Hn, Hs, Ha, Hb.
  now rewrite (event_loop_ext w1 w2 (schedule w2) Hout).
Qed.

(** C4.  When an item of the batch ends with its output slot empty, no run
    returns and no run sends from its try block, so no response with an
    [images] entry exists; and once the executor has resumed every item
    process to its end (a complete schedule), the run has ended by raising:
    every item process had run to its end before, [ensure_response] ran
    once and the sink received exactly the failure response.  The exception
    is the one built for the first index with an empty slot, and carries
    that index in its message, whenever the encoder accepted the images
    before it. *)
Theorem missing_output_fails_batch w responder c responder' evs i :
  run truth png_from render_fault w responder = (c, responder', evs) ->
  responded responder = false ->
  i < Z.to_nat (num_output_images w) ->
  output_from truth (response_image w i) = None ->
  (c <> Returned
   /\ filter is_send evs = []
   /\ (sink responder' = sink responder
       \/ sink responder' = sink responder ++ [Failure])%list)
  /\ (complete_schedule w ->
      (exists e, c = Raised e)
      /\ sink responder' = (sink responder ++ [Failure])%list
      /\ List.length (filter is_ensure evs) = 1
      /\ (forall k, k < Z.to_nat (num_output_images w) -> In (EvDone k) evs)
      /\ (forall j,
            j < Z.to_nat (num_output_images w) ->
            output_from truth (response_image w j) = None ->
            (forall k, k < j ->
                       exists png, item_encodes truth png_from w k png) ->
            c = Raised
                  (Exception
                     ("Expected output for process " ++ Py.str_of_nat j ++
                      " but got `None`")%string))).
Proof.
  intros Hrun Hfresh Hi Hnone.
  split; [eapply run_never_succeeds; eassumption |].
  intros Hcomplete.
  pose proof (run_complete _ _ _ _ _ Hrun Hcomplete) as Hc.
  destruct (run_missing_output _ _ _ _ _ _ Hrun Hfresh Hc Hi Hnone)
    as [[e [-> Hassembled]] [Hsink Hsend]].
  split; [eauto | split; [assumption |]].
  destruct (run_outcomes _ _ _ _ _ Hrun Hc)
    as [joined [Hbefore [Hjoined [[e' [_ [_ [_ ->]]]] |
                                  [pngs [[=] _]]]]]].
  split; [| split].
  - rewrite !filter_app. simpl.
    rewrite 2 filter_none; [reflexivity | |].
    + eapply Forall_impl; [| apply assemble_events]. now intros a [_ ?].
    + eapply Forall_impl; [| exact Hbefore]. now intros [].
  - intros k Hk. apply in_or_app. left. apply in_or_app. left.
    now apply Hjoined.
  - intros j Hj Hjnone Hearlier.
    rewrite (finished_batch_split w j Hj) in Hassembled.
    rewrite assemble_first_missing in Hassembled.
    + now injection Hassembled as <-.
    + apply Forall_forall. intros [k p] Hin.
      apply in_map_iff in Hin. destruct Hin as [k' [[= <- <-] Hk]].
      apply in_seq in Hk. destruct (Hearlier k' ltac:(lia)) as [png Hpng].
      exists png. now apply finished_encodes.
    + exact Hjnone.
Qed.

(** C10.  An exec that comes back with an image object that counts as
    false is handled as one that comes back with no image at all: the item
    process stores [None] in both cases, and the whole run, under every
    schedule, is the run of the batch in which that exec left no image.
    No run of such a batch returns or sends, and once the executor has
    resumed every item process to its end the run has raised and the sink
    received the failure response, not an empty image. *)
Theorem falsy_image_is_missing_output (img : Image) :
  truth img = false ->
  output_from truth (Some img) = output_from truth None
  /\ (forall w i stale,
        response_image w i = Some img ->
        fst (resume truth w
               {| index := i; output := stale; at_stage := Awaiting |})
        = {| index := i; output := None; at_stage := Finished |})
  /\ (forall w responder i,
        response_image w i = Some img ->
        run truth png_from render_fault w responder
        = run truth png_from render_fault (absent_at w i) responder)
  /\ (forall w responder c responder' evs i,
        run truth png_from render_fault w responder
          = (c, responder', evs) ->
        responded responder = false ->
        i < Z.to_nat (num_output_images w) ->
        response_image w i = Some img ->
        (c <> Returned
         /\ filter is_send evs = []
         /\ (sink responder' = sink responder
             \/ sink responder' = sink responder ++ [Failure])%list)
        /\ (complete_schedule w ->
            (exists e, c = Raised e)
            /\ sink responder' = (sink responder ++ [Failure])%list
            /\ List.length (filter is_ensure evs) = 1)).
Proof.
  intros Hfalsy.
  assert (Hnone : forall w i, response_image w i = Some img ->
                              output_from truth (response_image w i) = None).
  { intros w i Himg. rewrite Himg. simpl. now rewrite Hfalsy. }
  split; [| split; [| split]].
  - simpl. now rewrite Hfalsy.
  - intros w i stale Himg. unfold resume. simpl.
    now rewrite (Hnone w i Himg).
  - intros w responder i Himg. apply run_ext; try reflexivity.
    intros k. simpl. destruct (Nat.eqb k i) eqn:Hk; [| reflexivity].
    apply Nat.eqb_eq in Hk. subst k. exact (Hnone w i Himg).
  - intros w responder c responder' evs i Hrun Hfresh Hi Himg.
    split; [eapply run_never_succeeds; eauto |].
    intros Hcomplete.
    pose proof (run_complete _ _ _ _ _ Hrun Hcomplete) as Hc.
    destruct (run_missing_output _ _ _ _ _ i Hrun Hfresh Hc Hi
                (Hnone w i Himg)) as [[e [-> _]] [Hsink _]].
    split; [eauto | split; [exact Hsink |]].
    destruct (run_outcomes _ _ _ _ _ Hrun Hc)
      as [joined [Hbefore [_ [[e' [_ [_ [_ ->]]]] | [pngs [[=] _]]]]]].
    rewrite !filter_app. simpl.
    rewrite 2 filter_none; [reflexivity | |].
    + eapply Forall_impl; [| apply assemble_events]. now intros a [_ ?].
    + eapply Forall_impl; [| exact Hbefore]. now intros [].
Qed.

End BatchProcess.

(** ** The concrete batch *)

Lemma sample_complete : complete_schedule Sample.all_succeed.
Proof.
  intros i Hi. change (i < 3) in Hi.
  destruct i as [|[|[|i]]]; [simpl; lia .. | lia].
Qed.

Lemma sample_complete_item_1_empty : complete_schedule Sample.item_1_empty.
Proof.
  intros i Hi. change (i < 3) in Hi.
  destruct i as [|[|[|i]]]; [simpl; lia .. | lia].
Qed.

Lemma run_ensures_response_once_witness :
  let '(c, responder', evs) :=
    run Sample.truth Sample.png_from Sample.render_fault
      Sample.item_1_empty Sample.fresh in
  c <> Suspended
  /\ List.length (filter is_ensure evs) = 1
  /\ sink responder' = [Failure].
Proof.
  destruct (run Sample.truth Sample.png_from Sample.render_fault
              Sample.item_1_empty Sample.fresh) as [[c r] evs] eqn:Hrun.
  destruct (run_ensures_response_once _ _ _ _ _ _ _ _ _ _ Hrun eq_refl)
    as [Hends Honce].
  specialize (Hends sample_complete_item_1_empty).
  destruct (Honce Hends) as [Hcount [_ [_ [one [Hsink [_ Hfail]]]]]].
  split; [assumption | split; [assumption |]].
  pose proof Hrun as Hval. vm_compute in Hval. injection Hval as Hc _ _.
  rewrite Hsink, (Hfail _ (eq_sym Hc)). reflexivity.
Defined.


Lemma join_precedes_assembly_witness :
  In (EvLaunch 2) Sample.joined_events /\ In (EvDone 2) Sample.joined_events.
Proof.
  destruct (run Sample.truth Sample.png_from Sample.render_fault
              Sample.all_succeed Sample.fresh) as [[c r] evs] eqn:Hrun.
  apply (join_precedes_assembly _ _ _ _ _ _ _ _ _ _ Hrun
           Sample.joined_events (EvAssemble 0)
           [EvAssemble 1; EvAssemble 2; EvSendResponse; EvEnsureResponse]).
  - pose proof Hrun as Hval. vm_compute in Hval.
    now injection Hval as _ _ <-.
  - reflexivity.
  - simpl. lia.
Defined.

Lemma missing_output_fails_batch_witness :
  let '(c, responder', evs) :=
    run Sample.truth Sample.png_from Sample.render_fault
      Sample.item_1_empty Sample.fresh in
  c = Raised (Exception "Expected output for process 1 but got `None`")
  /\ sink responder' = [Failure]
  /\ filter is_send evs = []
  /\ List.length (filter is_ensure evs) = 1
  /\ In (EvDone 0) evs /\ In (EvDone 2) evs.
Proof.
  destruct (run Sample.truth Sample.png_from Sample.render_fault
              Sample.item_1_empty Sample.fresh) as [[c r] evs] eqn:Hrun.
  destruct (missing_output_fails_batch _ _ _ _ _ _ _ _ _ _ 1 Hrun eq_refl)
    as [[_ [Hsend _]] Hended].
  - simpl. lia.
  - reflexivity.
  - destruct (Hended sample_complete_item_1_empty)
      as [_ [Hsink [Hensure [Hdone Hnames]]]].
    split; [| split; [exact Hsink | split; [exact Hsend |
                      split; [exact Hensure |]]]].
    + apply (Hnames 1); [simpl; lia | reflexivity |].
      intros k Hk. assert (k = 0) as -> by lia.
      exists "png:img0", "img0". repeat split.
    + split; apply Hdone; simpl; lia.
Defined.

Lemma falsy_image_is_missing_output_witness :
  output_from Sample.truth (Some "") = output_from Sample.truth None
  /\ run Sample.truth Sample.png_from Sample.render_fault
       Sample.item_1_empty Sample.fresh
     = run Sample.truth Sample.png_from Sample.render_fault
         (absent_at Sample.item_1_empty 1) Sample.fresh
  /\ let '(c, responder', evs) :=
       run Sample.truth Sample.png_from Sample.render_fault
         Sample.item_1_empty Sample.fresh in
     (exists e, c = Raised e) /\ sink responder' = [Failure]
     /\ filter is_send evs = [].
Proof.
  destruct (falsy_image_is_missing_output _ Sample.truth _ Sample.png_from
              Sample.render_fault "" eq_refl)
    as [Hsame [_ [Hrun_same Hbatch]]].
  split; [exact Hsame |].
  split; [apply (Hrun_same Sample.item_1_empty Sample.fresh 1); reflexivity |].
  destruct (run Sample.truth Sample.png_from Sample.render_fault
              Sample.item_1_empty Sample.fresh) as [[c r] evs] eqn:Hrun.
  destruct (Hbatch _ _ _ _ _ 1 Hrun eq_refl) as [[_ [Hsend _]] Hended].
  - simpl. lia.
  - reflexivity.
  - destruct (Hended sample_complete_item_1_empty) as [Hraised [Hsink _]].
    split; [exact Hraised | split; [exact Hsink | exact Hsend]].
Defined.

(** * Further properties *)

(** ** Lists and strings of the serializer *)

Lemma join_app (sep : string) (a b : list string) :
  a <> [] -> b <> [] ->
  Py.join sep (a ++ b)%list = Py.join sep a ++ sep ++ Py.join sep b.
Proof.
  intros Ha Hb. induction a as [|x [|y rest] IH].
  - contradiction.
  - destruct b as [|z b']; [contradiction | reflexivity].
  - change (Py.join sep ((x :: y :: rest) ++ b)%list)
      with (x ++ sep ++ Py.join sep ((y :: rest) ++ b)%list).
    rewrite IH by discriminate.
    change (Py.join sep (x :: y :: rest))
      with (x ++ sep ++ Py.join sep (y :: rest)).
    now rewrite !append_assoc.
Qed.

(** X1.  The rendering of a list made of two non-empty parts is the
    rendering of the first part, a comma, and the rendering of the second
    part. *)
Theorem list_serialized_app (a b : list HTTPStructuredField) :
  a <> [] -> b <> [] ->
  serialized (HTTPListField (a ++ b)%list) =
  serialized (HTTPListField a) ++ "," ++ serialized (HTTPListField b).
Proof.
  intros Ha Hb. rewrite !list_serialized, map_app.
  apply join_app; now destruct a, b.
Qed.

Lemma list_serialized_app_witness :
  serialized
    (HTTPListField
       ([HTTPBooleanField true; HTTPStringField "a"] ++ [HTTPBooleanField false])%list)
  = serialized (HTTPListField [HTTPBooleanField true; HTTPStringField "a"])
    ++ "," ++ serialized (HTTPListField [HTTPBooleanField false]).
Proof.
  apply (list_serialized_app
           [HTTPBooleanField true; HTTPStringField "a"]
           [HTTPBooleanField false]); discriminate.
Defined.

(** X2.  Lists nested in a list leave no mark: a list of non-empty lists is
    rendered exactly as the one flat list of all their items. *)
Theorem nested_lists_serialized_flat (inner : list (list HTTPStructuredField)) :
  Forall (fun l => l <> []) inner ->
  serialized (HTTPListField (map HTTPListField inner)) =
  serialized (HTTPListField (List.concat inner)).
Proof.
  induction inner as [|l [|l' rest] IH]; intros Hne.
  - reflexivity.
  - cbn [List.concat]. rewrite app_nil_r. reflexivity.
  - inversion Hne as [|? ? Hl Hrest]; subst.
    specialize (IH Hrest).
    change (serialized (HTTPListField (map HTTPListField (l :: l' :: rest))))
      with (serialized (HTTPListField l) ++ "," ++
            serialized (HTTPListField (map HTTPListField (l' :: rest)))).
    rewrite IH.
    change (List.concat (l :: l' :: rest)) with (l ++ List.concat (l' :: rest))%list.
    symmetry. apply list_serialized_app; [assumption |].
    inversion Hrest as [|? ? Hl' _]; subst.
    simpl. now destruct l'.
Qed.

Lemma nested_lists_serialized_flat_witness :
  serialized
    (HTTPListField
       (map HTTPListField
          [[HTTPBooleanField true]; [HTTPStringField "a"; HTTPBooleanField false]]))
  = serialized
      (HTTPListField
         (List.concat
            [[HTTPBooleanField true]; [HTTPStringField "a"; HTTPBooleanField false]])).
Proof.
  apply (nested_lists_serialized_flat
           [[HTTPBooleanField true]; [HTTPStringField "a"; HTTPBooleanField false]]).
  repeat constructor; discriminate.
Defined.

(** X3.  A string is put between quotes as it is, with no escaping: one
    string item whose text holds a quote, a comma and a quote is rendered
    exactly as two string items. *)
Theorem string_serialized_unescaped (a b : string) :
  serialized
    (HTTPListField [HTTPStringField (a ++ Py.dquote ++ "," ++ Py.dquote ++ b)])
  = serialized (HTTPListField [HTTPStringField a; HTTPStringField b])
  /\ HTTPListField [HTTPStringField (a ++ Py.dquote ++ "," ++ Py.dquote ++ b)]
     <> HTTPListField [HTTPStringField a; HTTPStringField b].
Proof.
  split; [| discriminate].
  rewrite !list_serialized. cbn [map Py.join serialized].
  now rewrite !append_assoc.
Qed.

(** ** The [dict] under a parameter set *)

Section DictFacts.
Local Open Scope list_scope.
Context {V : Type}.

Implicit Types (d : Py.dict V) (pairs : list (string * V)).

Lemma setitem_fresh key value d :
  ~ In key (map fst d) -> Py.setitem key value d = d ++ [(key, value)].
Proof.
  induction d as [|[k v] d IH]; simpl; intros Hfresh.
  - reflexivity.
  - destruct (String.eqb_spec k key) as [-> | Hne].
    + exfalso. apply Hfresh. now left.
    + rewrite IH; [reflexivity |]. intros Hin. apply Hfresh. now right.
Qed.

Lemma setitem_keys key value d :
  forall k, In k (map fst (Py.setitem key value d)) <->
            k = key \/ In k (map fst d).
Proof.
  induction d as [|[k0 v0] d IH]; simpl; intros k.
  - intuition.
  - destruct (String.eqb_spec k0 key) as [-> | Hne]; simpl.
    + intuition.
    + rewrite IH. intuition.
Qed.

Lemma setitem_NoDup key value d :
  NoDup (map fst d) -> NoDup (map fst (Py.setitem key value d)).
Proof.
  induction d as [|[k0 v0] d IH]; simpl; intros Hd.
  - repeat constructor. intros [].
  - inversion Hd as [|? ? Hk0 Hrest]; subst.
    destruct (String.eqb_spec k0 key) as [-> | Hne]; simpl.
    + now constructor.
    + constructor; [| now apply IH].
      rewrite setitem_keys. intros [-> | Hin]; [now apply Hne | contradiction].
Qed.

Lemma setitem_length key value d :
  List.length (Py.setitem key value d) <= S (List.length d).
Proof.
  induction d as [|[k0 v0] d IH]; simpl.
  - lia.
  - destruct (String.eqb k0 key); simpl; lia.
Qed.

Lemma fold_store_distinct pairs :
  forall d,
    NoDup (map fst d ++ map fst pairs) ->
    fold_left store pairs d = d ++ pairs.
Proof.
  induction pairs as [|[k v] pairs IH]; intros d Hnodup; simpl.
  - now rewrite app_nil_r.
  - simpl in Hnodup. unfold store at 2. simpl.
    rewrite setitem_fresh.
    + rewrite IH.
      * now rewrite <- app_assoc.
      * rewrite map_app. simpl. rewrite <- app_assoc. exact Hnodup.
    + apply NoDup_remove_2 in Hnodup. intros Hin. apply Hnodup.
      apply in_or_app. now left.
Qed.

Lemma fold_store_facts pairs :
  forall d,
    NoDup (map fst d) ->
    NoDup (map fst (fold_left store pairs d))
    /\ (forall k, In k (map fst (fold_left store pairs d)) <->
                  In k (map fst d) \/ In k (map fst pairs))
    /\ List.length (fold_left store pairs d)
       <= List.length d + List.length pairs.
Proof.
  induction pairs as [|[k v] pairs IH]; intros d Hd; simpl.
  - split; [assumption | split; [intuition | lia]].
  - destruct (IH (store d (k, v)) (setitem_NoDup k v d Hd))
      as [Hnodup [Hkeys Hlen]].
    split; [assumption | split].
    + intros k'. rewrite Hkeys. unfold store. simpl.
      rewrite setitem_keys. intuition.
    + pose proof (setitem_length k v d) as Hone.
      change (Py.setitem k v d) with (store d (k, v)) in Hone. simpl. lia.
Qed.

Lemma last_given_snoc key entries k (v : V) :
  last_given key (entries ++ [(k, v)]) =
  if String.eqb k key then Some v else last_given key entries.
Proof.
  induction entries as [|[k0 v0] entries IH]; simpl.
  - reflexivity.
  - rewrite IH. now destruct (String.eqb k key).
Qed.

Lemma existsb_filter_other (k a : string) (l : list string) :
  String.eqb k a = false ->
  existsb (String.eqb k) (filter (fun k' => negb (String.eqb k' a)) l)
  = existsb (String.eqb k) l.
Proof.
  intros Hne. induction l as [|x l IH]; simpl; [reflexivity |].
  destruct (String.eqb_spec x a) as [-> | Hx]; simpl.
  - now rewrite Hne, IH.
  - now rewrite IH.
Qed.

Lemma first_occurrences_mem (k : string) (l : list string) :
  existsb (String.eqb k) (first_occurrences l) = existsb (String.eqb k) l.
Proof.
  induction l as [|a l IH]; simpl; [reflexivity |].
  destruct (String.eqb k a) eqn:Hka; simpl; [reflexivity |].
  now rewrite existsb_filter_other.
Qed.

Lemma first_occurrences_snoc (k : string) (l : list string) :
  first_occurrences (l ++ [k]) =
  if existsb (String.eqb k) l then first_occurrences l
  else first_occurrences l ++ [k].
Proof.
  induction l as [|a l IH]; simpl; [reflexivity |].
  rewrite IH.
  destruct (String.eqb_spec k a) as [-> | Hka]; simpl.
  - destruct (existsb (String.eqb a) l); [reflexivity |].
    rewrite filter_app. simpl. rewrite String.eqb_refl. simpl.
    now rewrite app_nil_r.
  - destruct (existsb (String.eqb k) l); [reflexivity |].
    rewrite filter_app. simpl.
    destruct (String.eqb_spec k a) as [-> | _]; [contradiction | reflexivity].
Qed.

Lemma setitem_key_list key value d :
  map fst (Py.setitem key value d) =
  if existsb (String.eqb key) (map fst d) then map fst d
  else map fst d ++ [key].
Proof.
  induction d as [|[k0 v0] d IH]; simpl; [reflexivity |].
  rewrite (String.eqb_sym key k0).
  destruct (String.eqb k0 key); simpl; [reflexivity |].
  rewrite IH. now destruct (existsb (String.eqb key) (map fst d)).
Qed.

Lemma setitem_In key value d k v :
  NoDup (map fst d) ->
  In (k, v) (Py.setitem key value d) <->
  (k = key /\ v = value) \/ (k <> key /\ In (k, v) d).
Proof.
  induction d as [|[k0 v0] d IH]; simpl; intros Hd.
  - split.
    + intros [[= <- <-] | []]. now left.
    + intros [[-> ->] | [_ []]]. now left.
  - inversion Hd as [|? ? Hk0 Hrest]; subst.
    assert (Hother : In (k, v) d -> k <> k0).
    { intros Hin ->. apply Hk0.
      now apply (in_map fst) in Hin. }
    destruct (String.eqb_spec k0 key) as [-> | Hne]; simpl.
    + split.
      * intros [[= <- <-] | Hin]; [now left |].
        right. split; [now apply Hother | now right].
      * intros [[-> ->] | [Hk [[= <- <-] | Hin]]];
          [now left | contradiction | now right].
    + rewrite (IH Hrest). split.
      * intros [[= <- <-] | [[-> ->] | [Hk Hin]]].
        -- right. split; [assumption | now left].
        -- now left.
        -- right. split; [assumption | now right].
      * intros [[-> ->] | [Hk [[= <- <-] | Hin]]].
        -- right. now left.
        -- now left.
        -- right. right. now split.
Qed.

(** The dict built from a list of entries: its keys are the given keys,
    each where it is first given, and every key holds the value given
    last. *)
Lemma fold_store_first_last pairs :
  map fst (fold_left store pairs ([] : Py.dict V))
  = first_occurrences (map fst pairs)
  /\ forall k v, In (k, v) (fold_left store pairs ([] : Py.dict V)) <->
                 last_given k pairs = Some v.
Proof.
  induction pairs as [|[key value] pairs [IHkeys IHvalues]] using rev_ind.
  - split; [reflexivity |]. intros k v. simpl. split; [intros [] | discriminate].
  - rewrite fold_left_app. cbn [fold_left]. unfold store at 1 3.
    cbn [fst snd]. split.
    + rewrite setitem_key_list, IHkeys, map_app. cbn [map fst].
      now rewrite first_occurrences_snoc, first_occurrences_mem.
    + intros k v. rewrite last_given_snoc.
      rewrite setitem_In
        by (apply (fold_store_facts pairs []); constructor).
      rewrite IHvalues.
      destruct (String.eqb_spec key k) as [-> | Hne].
      * split.
        -- intros [[_ ->] | [Hk _]]; [reflexivity | contradiction].
        -- intros [= <-]. now left.
      * split.
        -- intros [[-> _] | [_ Hlast]]; [contradiction | assumption].
        -- intros Hlast. right. split; [congruence | assumption].
Qed.

End DictFacts.



(** X5.  Whatever entries a parameter set is built from, it holds every
    given key exactly once and no other key, so it renders one parameter per
    distinct key, never more parameters than entries. *)
Theorem parameters_keys_once (entries : list (string * HTTPStructuredField)) :
  NoDup (map fst (Py.items (Py.dict_of entries)))
  /\ (forall key, In key (map fst (Py.items (Py.dict_of entries))) <->
                  In key (map fst entries))
  /\ (List.length (Py.items (Py.dict_of entries)) <= List.length entries)%nat.
Proof.
  unfold Py.items, Py.dict_of.
  change (fun (d : Py.dict HTTPStructuredField) kv =>
            Py.setitem (fst kv) (snd kv) d) with (@store HTTPStructuredField).
  destruct (fold_store_facts entries [] (NoDup_nil _)) as [Hnodup [Hkeys Hlen]].
  split; [assumption | split; [| exact Hlen]].
  intros key. rewrite Hkeys. simpl. intuition.
Qed.



(** ** More on the batch process *)

Section BatchProcessMore.
Local Open Scope list_scope.

Variable Image : Type.
Variable truth : Image -> bool.
Variable Png : Type.
Variable png_from : Image -> PyException + Png.
Variable render_fault : JSONResponse Png -> option PyException.

Implicit Types (w : World Image) (responder : FastAPIResponder Png).

(** Events of the executor while the batch process waits at its gather. *)
Let loop_events w : list event :=
  snd (event_loop truth w (schedule w)
         (map new_GenerateImageProcess (Py.range (num_output_images w)))).

(** What follows the join in the trace of a run that ends. *)
Let after_join w (c : completion) : list event :=
  snd (assemble png_from (finished_batch truth w) []) ++
  match c with
  | Returned => [EvSendResponse; EvEnsureResponse]
  | _ => [EvEnsureResponse]
  end.

(** The whole trace of a run: the launches in index order, the events of
    the executor, and, unless the gather never resolves, the assembly
    followed by the delivery. *)
Lemma run_trace w responder c responder' evs :
  run truth png_from render_fault w responder = (c, responder', evs) ->
  evs = map EvLaunch (Py.range (num_output_images w)) ++ loop_events w ++
        match c with
        | Suspended => []
        | _ => after_join w c
        end.
Proof.
  intros Hrun.
  destruct (run_cases _ _ _ _ _ _ _ _ _ _ Hrun)
    as [final [resolved [joined [Hjoin [[-> [-> [_ ->]]] |
          [-> [Hc [r0 [evs0 [Hrespond [_ ->]]]]]]]]]]].
  - rewrite join_unfold in Hjoin. injection Hjoin as _ _ <-.
    now rewrite app_nil_r.
  - destruct (join_resolved _ _ _ _ _ Hjoin) as [-> _].
    rewrite join_unfold in Hjoin. injection Hjoin as _ _ <-.
    apply respond_cases in Hrespond.
    unfold Py.range in Hrespond. rewrite enumerate_map_seq in Hrespond.
    fold (Py.range (num_output_images w)) in Hrespond.
    fold (finished_batch truth w) in Hrespond. cbv zeta in Hrespond.
    unfold after_join, loop_events.
    destruct Hrespond as [[e [_ [-> [_ ->]]]] |
                          [[pngs [e [_ [_ [-> [_ ->]]]]]] |
                           [pngs [_ [_ [-> [_ ->]]]]]]];
      now rewrite <- !app_assoc.
Qed.

Lemma loop_events_before_join w :
  Forall (fun e => past_join e = false) (loop_events w).
Proof. apply event_loop_before_join. Qed.

(** *** The assembly loop, event by event *)

Lemma assemble_trace_all each :
  forall png_images pngs,
    Forall2 (encodes png_from) each pngs ->
    snd (assemble png_from each png_images) = map EvAssemble (map fst each).
Proof.
  induction each as [|[i p] rest IH]; intros png_images pngs Hall;
    inversion Hall as [|? png ? pngs' Hhead Hrest]; subst; simpl.
  - reflexivity.
  - destruct Hhead as [out [Hout Hpng]]. simpl in Hout.
    rewrite Hout, Hpng.
    specialize (IH (png_images ++ [png]) pngs' Hrest).
    destruct (assemble png_from rest (png_images ++ [png])) as [result evs'].
    simpl in *. now rewrite IH.
Qed.

(** The loop stops at the first process without an output or whose image
    the encoder refuses, with the exception of that process. *)
Lemma assemble_first_failure earlier :
  forall png_images j p later e,
    Forall (fun each => exists png, encodes png_from each png) earlier ->
    (output p = None /\ e = missing_output j
     \/ exists out, output p = Some out /\ png_from (image out) = inl e) ->
    assemble png_from (earlier ++ (j, p) :: later) png_images =
    (inl e, map EvAssemble (map fst earlier ++ [j])).
Proof.
  induction earlier as [|[i q] rest IH];
    intros png_images j p later e Hearlier Hfails; simpl.
  - destruct Hfails as [[-> ->] | [out [-> ->]]]; reflexivity.
  - inversion Hearlier as [|? ? Hhead Hrest]; subst.
    destruct Hhead as [png [out [Hout Hpng]]].
    simpl in Hout. rewrite Hout, Hpng.
    now rewrite (IH (png_images ++ [png]) j p later e Hrest Hfails).
Qed.

Lemma Forall2_map_l {A B C : Type} (R : B -> C -> Prop) (f : A -> B)
    (l : list A) :
  forall l', Forall2 (fun x y => R (f x) y) l l' -> Forall2 R (map f l) l'.
Proof.
  induction l as [|x l IH]; intros l' Hall;
    inversion Hall; subst; simpl; constructor; auto.
Qed.

Lemma finished_batch_encodes w pngs :
  Forall2 (item_encodes truth png_from w)
    (Py.range (num_output_images w)) pngs ->
  Forall2 (encodes png_from) (finished_batch truth w) pngs.
Proof.
  intros Hall. unfold finished_batch. apply Forall2_map_l.
  eapply Forall2_impl; [| exact Hall].
  intros i png Hi. now apply finished_encodes.
Qed.

Lemma finished_batch_fails w j e :
  item_fails truth png_from w j e ->
  output (finished_process truth w j) = None /\ e = missing_output j
  \/ exists out,
       output (finished_process truth w j) = Some out
       /\ png_from (image out) = inl e.
Proof.
  unfold item_fails, finished_process. simpl.
  intros [[Hnone ->] | [img [Himg [Htruth Hpng]]]].
  - now left.
  - right. exists {| image := img |}. unfold output_from.
    rewrite Himg, Htruth. now split.
Qed.

Lemma earlier_encode w j :
  (forall k, k < j -> exists png, item_encodes truth png_from w k png) ->
  Forall (fun each => exists png, encodes png_from each png)
    (map (fun i => (i, finished_process truth w i)) (seq 0 j)).
Proof.
  intros Hearlier. apply Forall_forall. intros [k p] Hin.
  apply in_map_iff in Hin. destruct Hin as [k' [[= <- <-] Hk]].
  apply in_seq in Hk. destruct (Hearlier k' ltac:(lia)) as [png Hpng].
  exists png. now apply finished_encodes.
Qed.

(** *** When a run ends, and what an empty batch does *)

Lemma event_loop_nil w (schedule : list nat) :
  event_loop truth w schedule [] = ([], []).
Proof.
  induction schedule as [|i rest IH]; simpl; [reflexivity |].
  now rewrite IH.
Qed.

(** X7.  A run ends exactly when the executor resumes every item process of
    the batch at least twice (once to submit, once after completion).  A run
    that does not end stays at its gather: the responder is as it was, and
    nothing was assembled, sent or finalized. *)
Theorem run_ends_iff_complete w responder c responder' evs :
  run truth png_from render_fault w responder = (c, responder', evs) ->
  (c <> Suspended <-> complete_schedule w)
  /\ (c = Suspended ->
      responder' = responder /\ filter past_join evs = []).
Proof.
  intros Hrun. split; [split |].
  - intros Hc i Hi.
    destruct (run_cases _ _ _ _ _ _ _ _ _ _ Hrun)
      as [final [resolved [joined [Hjoin [[_ [-> _]] | [-> _]]]]]];
      [contradiction |].
    rewrite join_unfold in Hjoin. injection Hjoin as _ Hall _.
    rewrite forallb_forall in Hall.
    specialize (Hall (settle truth w (schedule w) (new_GenerateImageProcess i))).
    pose proof (settle_steps_left Image truth w (schedule w)
                  (new_GenerateImageProcess i)) as Hsteps.
    change (steps_left (new_GenerateImageProcess i)) with 2 in Hsteps.
    change (index (@new_GenerateImageProcess Image i)) with i in Hsteps.
    assert (Hfin : is_finished (settle truth w (schedule w)
                                  (new_GenerateImageProcess i)) = true).
    { apply Hall. apply in_map_iff. exists i. split; [reflexivity |].
      now apply in_range. }
    apply finished_stage in Hfin. unfold steps_left in Hsteps.
    rewrite Hfin in Hsteps. lia.
  - intros Hcomplete ->.
    destruct (run_cases _ _ _ _ _ _ _ _ _ _ Hrun)
      as [final [resolved [joined [Hjoin [[-> _] | [_ [Hc _]]]]]]];
      [| contradiction].
    pose proof (join_complete _ truth w Hcomplete) as Hresolved.
    rewrite Hjoin in Hresolved. discriminate.
  - intros ->. apply run_suspended in Hrun. destruct Hrun as [-> Hnone].
    split; [reflexivity | now apply filter_none].
Qed.


(** X9.  What a run that ends delivers does not depend on the order in which
    the executor resumed the item processes: two batches with the same
    request, the same exec results and the same clock readings end the same
    way and leave the same responder. *)
Theorem response_independent_of_schedule
    w1 w2 responder c1 r1 evs1 c2 r2 evs2 :
  same_batch w1 w2 ->
  run truth png_from render_fault w1 responder = (c1, r1, evs1) ->
  run truth png_from render_fault w2 responder = (c2, r2, evs2) ->
  c1 <> Suspended -> c2 <> Suspended ->
  c1 = c2 /\ r1 = r2.
Proof.
  intros [Hn [Himg [Hstart Hend]]] Hrun1 Hrun2 Hc1 Hc2.
  assert (Hbatch : finished_batch truth w1 = finished_batch truth w2).
  { unfold finished_batch, finished_process. rewrite Hn.
    apply map_ext. intros i. now rewrite Himg. }
  assert (Hresp : forall pngs,
            @success_response Image Png w1 pngs = success_response w2 pngs).
  { intros pngs. unfold success_response, batch_duration_in_milliseconds.
    now rewrite Hstart, Hend. }
  destruct (run_outcomes _ _ _ _ _ _ _ _ _ _ Hrun1 Hc1)
    as [j1 [_ [_ [[e1 [-> [Hf1 [-> _]]]] | [p1 [-> [Ha1 [Hr1 [-> _]]]]]]]]];
  destruct (run_outcomes _ _ _ _ _ _ _ _ _ _ Hrun2 Hc2)
    as [j2 [_ [_ [[e2 [-> [Hf2 [-> _]]]] | [p2 [-> [Ha2 [Hr2 [-> _]]]]]]]]];
    rewrite Hbatch in *.
  - split; [| reflexivity]. f_equal.
    destruct Hf1 as [Hf1 | [p1 [Ha1 Hr1]]], Hf2 as [Hf2 | [p2 [Ha2 Hr2]]];
      try congruence.
  - exfalso. destruct Hf1 as [Hf1 | [p1 [Ha1 Hr1]]]; [congruence |].
    assert (p1 = p2) by congruence. subst p2.
    rewrite Hresp in Hr1. congruence.
  - exfalso. destruct Hf2 as [Hf2 | [p2 [Ha2 Hr2]]]; [congruence |].
    assert (p1 = p2) by congruence. subst p2.
    rewrite Hresp in Hr1. congruence.
  - assert (p1 = p2) by congruence. subst p2.
    now rewrite Hresp.
Qed.

(** *** Which outputs the assembly looks at *)

Lemma map_fst_pair {A B : Type} (f : A -> B) (l : list A) :
  map fst (map (fun i => (i, f i)) l) = l.
Proof.
  induction l as [|x l IH]; simpl; [reflexivity | now rewrite IH].
Qed.

Lemma filter_all {A : Type} (f : A -> bool) (l : list A) :
  Forall (fun x => f x = true) l -> filter f l = l.
Proof.
  induction 1 as [|x l Hx _ IH]; simpl; [reflexivity |].
  now rewrite Hx, IH.
Qed.

Lemma loop_events_kind w :
  Forall (fun e => is_launch e = false /\ past_join e = false)
    (loop_events w).
Proof.
  unfold loop_events.
  generalize (map (@new_GenerateImageProcess Image)
                (Py.range (num_output_images w))).
  induction (schedule w) as [|i rest IH]; intros gen_processes; simpl.
  - constructor.
  - specialize (IH (map (fun p => if Nat.eqb (index p) i
                                  then fst (resume truth w p) else p)
                        gen_processes)).
    destruct (event_loop truth w rest _) as [final evs'].
    simpl in *. apply Forall_app. split; [| assumption].
    apply Forall_forall. intros e He.
    apply in_flat_map in He. destruct He as [p [_ He]].
    destruct (Nat.eqb (index p) i); [| contradiction].
    unfold resume in He.
    destruct (at_stage p); simpl in He;
      try (destruct He as [<- | []]; now split); contradiction.
Qed.

(** The events past the join, filtered for output inspections. *)
Lemma run_inspections w responder c responder' evs :
  run truth png_from render_fault w responder = (c, responder', evs) ->
  c <> Suspended ->
  filter is_assemble evs =
  filter is_assemble (snd (assemble png_from (finished_batch truth w) [])).
Proof.
  intros Hrun Hc. rewrite (run_trace _ _ _ _ _ Hrun).
  rewrite !filter_app.
  rewrite (filter_none is_assemble (map EvLaunch _)).
  2: { apply Forall_forall. intros e He. apply in_map_iff in He.
       now destruct He as [i [<- _]]. }
  rewrite (filter_none is_assemble (loop_events w)).
  2: { eapply Forall_impl; [| apply loop_events_kind].
       intros [] [_ H]; simpl in *; congruence. }
  unfold after_join.
  destruct c; [| | contradiction]; rewrite filter_app; simpl;
    now rewrite app_nil_r.
Qed.


(** X11.  The assembly stops at the first item whose output slot is empty
    or whose image the encoder refuses: the run raises the exception of that
    item unchanged, has looked at the outputs up to that index and at none
    after it, has sent nothing, and the sink received the failure response. *)
Theorem first_failure_stops_assembly w responder c responder' evs j e :
  run truth png_from render_fault w responder = (c, responder', evs) ->
  responded responder = false ->
  c <> Suspended ->
  j < Z.to_nat (num_output_images w) ->
  (forall k, k < j -> exists png, item_encodes truth png_from w k png) ->
  item_fails truth png_from w j e ->
  c = Raised e
  /\ filter is_assemble evs = map EvAssemble (seq 0 (S j))
  /\ filter is_send evs = []
  /\ sink responder' = sink responder ++ [Failure].
Proof.
  intros Hrun Hfresh Hc Hj Hearlier Hfails.
  pose proof (assemble_first_failure _ [] j (finished_process truth w j)
                (map (fun i => (i, finished_process truth w i))
                   (seq (S j) (Z.to_nat (num_output_images w) - S j)))
                e (earlier_encode w j Hearlier)
                (finished_batch_fails w j e Hfails)) as Hassembled.
  rewrite <- (finished_batch_split _ truth w j Hj) in Hassembled.
  rewrite map_fst_pair, <- seq_S in Hassembled.
  pose proof (run_inspections _ _ _ _ _ Hrun Hc) as Hinspect.
  rewrite Hassembled in Hinspect. cbn [snd] in Hinspect.
  rewrite (filter_all is_assemble (map EvAssemble _)) in Hinspect.
  2: { apply Forall_forall. intros x Hx. apply in_map_iff in Hx.
       now destruct Hx as [i [<- _]]. }
  destruct (run_outcomes _ _ _ _ _ _ _ _ _ _ Hrun Hc)
    as [joined [Hbefore [_ [[e' [-> [Hf [-> ->]]]] |
                            [pngs [_ [Ha _]]]]]]];
    rewrite Hassembled in *; simpl in *; [| discriminate].
  destruct Hf as [[= <-] | [pngs [[=] _]]].
  split; [reflexivity | split; [assumption | split]].
  - rewrite !filter_app. simpl.
    rewrite 2 filter_none; [reflexivity | |].
    + apply Forall_forall. intros x Hx. apply in_map_iff in Hx.
      now destruct Hx as [i [<- _]].
    + eapply Forall_impl; [| exact Hbefore]. now intros [].
  - unfold ensure_response. now rewrite Hfresh.
Qed.


Lemma assemble_only each :
  forall png_images,
    Forall (fun e => is_assemble e = true)
      (snd (assemble png_from each png_images)).
Proof.
  induction each as [|[k p] rest IH]; intros acc; simpl; [constructor |].
  destruct (output p) as [out|]; [| repeat constructor].
  destruct (png_from (image out)) as [ex | png]; [repeat constructor |].
  specialize (IH (acc ++ [png])).
  destruct (assemble png_from rest (acc ++ [png])) as [res evs''].
  simpl in *. now constructor.
Qed.

Lemma after_join_past w c :
  Forall (fun e => past_join e = true) (after_join w c).
Proof.
  unfold after_join. apply Forall_app. split.
  - eapply Forall_impl; [| apply assemble_only]. now intros [].
  - destruct c; repeat constructor.
Qed.

(** *** Once per item *)

(** Processes of index [i] still to submit, and processes of index [i]
    that ran to their end. *)
Let waiting (i : nat) (gen_processes : list (GenerateImageProcess Image)) : nat :=
  List.length
    (filter (fun p => Nat.eqb (index p) i && is_launched p) gen_processes).

Let ended (i : nat) (gen_processes : list (GenerateImageProcess Image)) : nat :=
  List.length
    (filter (fun p => Nat.eqb (index p) i && is_finished p) gen_processes).

Lemma length_filter_cons {A : Type} (f : A -> bool) (x : A) (l : list A) :
  List.length (filter f (x :: l)) =
  (if f x then 1 else 0) + List.length (filter f l).
Proof. simpl. now destruct (f x). Qed.

Lemma resume_one_counts w i j (p : GenerateImageProcess Image) :
  let p' := if Nat.eqb (index p) j then fst (resume truth w p) else p in
  let evs := if Nat.eqb (index p) j then snd (resume truth w p) else [] in
  List.length (filter (is_submit_of i) evs)
  + (if Nat.eqb (index p') i && is_launched p' then 1 else 0)
  = (if Nat.eqb (index p) i && is_launched p then 1 else 0)
  /\ List.length (filter (is_done_of i) evs)
     + (if Nat.eqb (index p) i && is_finished p then 1 else 0)
     = (if Nat.eqb (index p') i && is_finished p' then 1 else 0).
Proof.
  destruct p as [idx out st].
  unfold resume, is_launched, is_finished. cbn.
  destruct (Nat.eqb idx j); destruct st; cbn;
    destruct (Nat.eqb idx i); cbn; split; reflexivity.
Qed.

Lemma resume_index_counts w i j gen_processes :
  List.length (filter (is_submit_of i)
                 (snd (resume_index truth w j gen_processes)))
  + waiting i (fst (resume_index truth w j gen_processes))
  = waiting i gen_processes
  /\ List.length (filter (is_done_of i)
                    (snd (resume_index truth w j gen_processes)))
     + ended i gen_processes
     = ended i (fst (resume_index truth w j gen_processes)).
Proof.
  unfold resume_index, waiting, ended. cbn [fst snd].
  induction gen_processes as [|p rest [IHs IHd]]; [now split |].
  cbn [map flat_map]. rewrite !filter_app, !length_app, !length_filter_cons.
  destruct (resume_one_counts w i j p) as [Hs Hd]. cbv zeta in Hs, Hd.
  split; lia.
Qed.

Lemma event_loop_counts w i (schedule : list nat) :
  forall gen_processes,
    List.length (filter (is_submit_of i)
                   (snd (event_loop truth w schedule gen_processes)))
    + waiting i (fst (event_loop truth w schedule gen_processes))
    = waiting i gen_processes
    /\ List.length (filter (is_done_of i)
                      (snd (event_loop truth w schedule gen_processes)))
       + ended i gen_processes
       = ended i (fst (event_loop truth w schedule gen_processes)).
Proof.
  induction schedule as [|j rest IH]; intros gen_processes.
  - simpl. split; lia.
  - destruct (resume_index_counts w i j gen_processes) as [Hs Hd].
    cbn [event_loop].
    destruct (resume_index truth w j gen_processes) as [resumed evs].
    destruct (IH resumed) as [IHs IHd].
    destruct (event_loop truth w rest resumed) as [final evs'].
    cbn [fst snd] in *. rewrite !filter_app, !length_app. split; lia.
Qed.

Lemma count_in_seq (f : nat -> GenerateImageProcess Image)
    (P : GenerateImageProcess Image -> bool) (b : bool) (i : nat) :
  (forall k, index (f k) = k) ->
  (forall k, P (f k) = b) ->
  forall n a,
    List.length (filter (fun p => Nat.eqb (index p) i && P p)
                   (map f (seq a n)))
    = if b && Nat.leb a i && Nat.ltb i (a + n) then 1 else 0.
Proof.
  intros Hidx HP. induction n as [|n IH]; intros a.
  - simpl. destruct b, (Nat.leb_spec a i), (Nat.ltb_spec i (a + 0));
      simpl; try reflexivity; lia.
  - cbn [seq map]. rewrite length_filter_cons, IH, Hidx, HP.
    destruct b, (Nat.eqb_spec a i), (Nat.leb_spec (S a) i),
      (Nat.ltb_spec i (S a + n)), (Nat.leb_spec a i),
      (Nat.ltb_spec i (a + S n)); cbn [andb]; lia.
Qed.

Lemma count_launches (i : nat) :
  forall n a,
    List.length (filter (is_launch_of i) (map EvLaunch (seq a n)))
    = if Nat.leb a i && Nat.ltb i (a + n) then 1 else 0.
Proof.
  induction n as [|n IH]; intros a.
  - simpl. destruct (Nat.leb_spec a i), (Nat.ltb_spec i (a + 0));
      simpl; try reflexivity; lia.
  - cbn [seq map]. rewrite length_filter_cons, IH. cbn [is_launch_of].
    destruct (Nat.eqb_spec a i), (Nat.leb_spec (S a) i),
      (Nat.ltb_spec i (S a + n)), (Nat.leb_spec a i),
      (Nat.ltb_spec i (a + S n)); cbn [andb]; lia.
Qed.

(** The item processes as the executor leaves them in a run that ends. *)
Lemma loop_final w responder c responder' evs :
  run truth png_from render_fault w responder = (c, responder', evs) ->
  c <> Suspended ->
  fst (event_loop truth w (schedule w)
         (map new_GenerateImageProcess (Py.range (num_output_images w))))
  = map (finished_process truth w) (Py.range (num_output_images w)).
Proof.
  intros Hrun Hc.
  destruct (run_cases _ _ _ _ _ _ _ _ _ _ Hrun)
    as [final [resolved [joined [Hjoin [[_ [-> _]] | [-> _]]]]]];
    [contradiction |].
  destruct (join_resolved _ _ _ _ _ Hjoin) as [Hfinal _].
  rewrite join_unfold in Hjoin. injection Hjoin as Hmap _ _.
  rewrite event_loop_settle, map_map. congruence.
Qed.

(** X13.  In a run that ends, every item process of the batch was launched
    once, submitted its exec to the batcher once and ran to its end once;
    no launch, submission or completion bears any other index. *)
Theorem each_item_once w responder c responder' evs i :
  run truth png_from render_fault w responder = (c, responder', evs) ->
  c <> Suspended ->
  let expected :=
    if Nat.ltb i (Z.to_nat (num_output_images w)) then 1 else 0 in
  List.length (filter (is_launch_of i) evs) = expected
  /\ List.length (filter (is_submit_of i) evs) = expected
  /\ List.length (filter (is_done_of i) evs) = expected.
Proof.
  intros Hrun Hc expected.
  pose proof (loop_final _ _ _ _ _ Hrun Hc) as Hfinal.
  destruct (event_loop_counts w i (schedule w)
              (map new_GenerateImageProcess (Py.range (num_output_images w))))
    as [Hsub Hdone].
  rewrite Hfinal in Hsub, Hdone.
  unfold waiting, ended, Py.range in Hsub, Hdone.
  rewrite (count_in_seq new_GenerateImageProcess is_launched true i) in Hsub
    by reflexivity.
  rewrite (count_in_seq (finished_process truth w) is_launched false i) in Hsub
    by reflexivity.
  rewrite (count_in_seq new_GenerateImageProcess is_finished false i) in Hdone
    by reflexivity.
  rewrite (count_in_seq (finished_process truth w) is_finished true i) in Hdone
    by reflexivity.
  cbn [andb Nat.leb Nat.add] in Hsub, Hdone.
  assert (Hloop : forall f,
            (forall x, past_join x = true -> f x = false) ->
            (forall k, f (EvLaunch k) = false) ->
            filter f evs = filter f (loop_events w)).
  { intros f Hpast Hl. rewrite (run_trace _ _ _ _ _ Hrun).
    rewrite !filter_app.
    rewrite (filter_none f (map EvLaunch _)).
    2: { apply Forall_forall. intros x Hx. apply in_map_iff in Hx.
         destruct Hx as [k [<- _]]. apply Hl. }
    rewrite (filter_none f (match c with
                            | Suspended => []
                            | _ => after_join w c
                            end)).
    - now rewrite app_nil_r.
    - destruct c; [| | contradiction];
        (eapply Forall_impl; [| apply after_join_past]); auto. }
  split; [| split].
  - rewrite (run_trace _ _ _ _ _ Hrun), !filter_app, !length_app.
    unfold Py.range. rewrite count_launches.
    rewrite (filter_none (is_launch_of i) (loop_events w)).
    2: { eapply Forall_impl; [| apply loop_events_kind].
         intros [] [Hx _]; simpl in *; congruence. }
    rewrite (filter_none (is_launch_of i)
               (match c with
                | Suspended => []
                | _ => after_join w c
                end)).
    2: { destruct c; [| | contradiction];
           (eapply Forall_impl; [| apply after_join_past]);
           intros [] Hx; simpl in *; congruence. }
    subst expected. cbn [andb Nat.leb Nat.add List.length]. lia.
  - rewrite (Hloop (is_submit_of i)).
    2: { intros [] Hx; simpl in *; congruence. }
    2: { reflexivity. }
    unfold loop_events, Py.range. subst expected.
    destruct (Nat.ltb i (Z.to_nat (num_output_images w))); lia.
  - rewrite (Hloop (is_done_of i)).
    2: { intros [] Hx; simpl in *; congruence. }
    2: { reflexivity. }
    unfold loop_events, Py.range. subst expected.
    destruct (Nat.ltb i (Z.to_nat (num_output_images w))); lia.
Qed.

(** X14.  Every run, ended or not, starts by launching the item processes
    of the batch in ascending index order, before any of them submits or
    completes; nothing is launched later. *)
Theorem launches_come_first w responder c responder' evs :
  run truth png_from render_fault w responder = (c, responder', evs) ->
  exists later,
    evs = map EvLaunch (Py.range (num_output_images w)) ++ later
    /\ filter is_launch later = [].
Proof.
  intros Hrun. rewrite (run_trace _ _ _ _ _ Hrun).
  eexists. split; [reflexivity |].
  rewrite filter_app.
  rewrite (filter_none is_launch (loop_events w)).
  2: { eapply Forall_impl; [| apply loop_events_kind]. now intros x [Hx _]. }
  apply filter_none. destruct c; [| | constructor].
  all: eapply Forall_impl; [| apply after_join_past].
  all: intros [] Hx; simpl in *; congruence.
Qed.

(** *** Order of the events of one item *)

Lemma event_loop_indices w (schedule : list nat) :
  forall gen_processes e,
    In e (snd (event_loop truth w schedule gen_processes)) ->
    exists k, (e = EvSubmit k \/ e = EvDone k)
              /\ In k (map index gen_processes).
Proof.
  induction schedule as [|j rest IH]; intros gen_processes e He; simpl in He.
  - contradiction.
  - set (step := fun p : GenerateImageProcess Image =>
                   if Nat.eqb (index p) j then fst (resume truth w p) else p)
      in *.
    specialize (IH (map step gen_processes) e).
    destruct (event_loop truth w rest (map step gen_processes))
      as [final evs'].
    simpl in *. apply in_app_or in He. destruct He as [He | He].
    + apply in_flat_map in He. destruct He as [p [Hp He]].
      destruct (Nat.eqb (index p) j); [| contradiction].
      exists (index p). split; [| now apply in_map].
      unfold resume in He.
      destruct (at_stage p); simpl in He;
        try (destruct He as [<- | []]; auto); contradiction.
    + destruct (IH He) as [k [Hk Hin]]. exists k. split; [assumption |].
      rewrite map_map in Hin. apply in_map_iff in Hin.
      destruct Hin as [p [<- Hp]]. subst step. cbn beta.
      destruct (Nat.eqb (index p) j).
      * rewrite resume_index_same. now apply in_map.
      * now apply in_map.
Qed.

(** In the events of the executor, a completion of index [i] comes after a
    submission of index [i], given that the processes of index [i] already
    past their submission are accounted for in [seen]. *)
Lemma event_loop_submit_first w i (schedule : list nat) :
  forall gen_processes seen,
    (forall p, In p gen_processes -> index p = i ->
               at_stage p <> Launched -> In (EvSubmit i) seen) ->
    forall before after,
      snd (event_loop truth w schedule gen_processes)
        = before ++ EvDone i :: after ->
      In (EvSubmit i) (seen ++ before).
Proof.
  induction schedule as [|j rest IH];
    intros gen_processes seen Hseen before after Hsplit; simpl in Hsplit.
  - now destruct before.
  - set (step := fun p : GenerateImageProcess Image =>
                   if Nat.eqb (index p) j then fst (resume truth w p) else p)
      in *.
    set (emit := fun p : GenerateImageProcess Image =>
                   if Nat.eqb (index p) j then snd (resume truth w p) else [])
      in *.
    specialize (IH (map step gen_processes) (seen ++ flat_map emit gen_processes)).
    destruct (event_loop truth w rest (map step gen_processes))
      as [final evs'].
    cbn [snd] in *.
    assert (Hseen' : forall p, In p (map step gen_processes) -> index p = i ->
                at_stage p <> Launched ->
                In (EvSubmit i) (seen ++ flat_map emit gen_processes)).
    { intros p' Hp' Hidx Hstage. apply in_map_iff in Hp'.
      destruct Hp' as [p [<- Hp]]. apply in_or_app.
      subst step. cbn beta in *.
      destruct (Nat.eqb (index p) j) eqn:Hj.
      - rewrite resume_index_same in Hidx.
        destruct (at_stage p) eqn:Hp_stage.
        + right. apply in_flat_map. exists p. split; [assumption |].
          subst emit. cbn beta. rewrite Hj. unfold resume.
          rewrite Hp_stage. left. now rewrite Hidx.
        + left. apply (Hseen p Hp Hidx). congruence.
        + left. apply (Hseen p Hp Hidx). congruence.
      - left. now apply (Hseen p Hp Hidx). }
    specialize (IH Hseen').
    apply app_eq_app in Hsplit.
    destruct Hsplit as [l [[Hemit Hrest] | [Hbefore Hevs']]].
    + destruct l as [|x l].
      * rewrite app_nil_r in Hemit. simpl in Hrest. subst before.
        specialize (IH [] after (eq_sym Hrest)).
        now rewrite app_nil_r in IH.
      * injection Hrest as <- _.
        assert (Hin : In (EvDone i) (flat_map emit gen_processes))
          by (rewrite Hemit; apply in_or_app; right; now left).
        apply in_flat_map in Hin. destruct Hin as [p [Hp Hin]].
        subst emit. cbn beta in Hin.
        destruct (Nat.eqb (index p) j); [| contradiction].
        unfold resume in Hin.
        destruct (at_stage p) eqn:Hp_stage; simpl in Hin;
          try (destruct Hin as [[=] | []]); try contradiction.
        apply in_or_app. left. apply (Hseen p Hp); congruence.
    + subst before. specialize (IH l after Hevs').
      now rewrite app_assoc.
Qed.

(** X18.  In every run, ended or not, an item process that ran to its end
    had submitted its exec before, and had been launched before that; only
    item processes of the batch ever run to their end. *)
Theorem done_after_submit_after_launch w responder c responder' evs i :
  run truth png_from render_fault w responder = (c, responder', evs) ->
  forall before after,
    evs = before ++ EvDone i :: after ->
    i < Z.to_nat (num_output_images w)
    /\ exists earlier between,
         before = earlier ++ EvSubmit i :: between
         /\ In (EvLaunch i) earlier.
Proof.
  intros Hrun before after Hevs.
  pose proof (run_trace _ _ _ _ _ Hrun) as Htrace.
  set (launches := map EvLaunch (Py.range (num_output_images w))) in *.
  set (tail := match c with
               | Suspended => []
               | _ => after_join w c
               end) in *.
  assert (Htail : Forall (fun e => past_join e = true) tail).
  { subst tail. destruct c; try apply after_join_past. constructor. }
  rewrite Hevs in Htrace. symmetry in Htrace.
  destruct (split_after (fun e => negb (is_launch e)) launches
              (loop_events w ++ tail) before after (EvDone i))
    as [mid ->]; [| reflexivity | exact Htrace |].
  { apply Forall_forall. intros e He. subst launches.
    apply in_map_iff in He. now destruct He as [k [<- _]]. }
  rewrite <- app_assoc in Htrace. apply app_inv_head in Htrace.
  apply app_eq_app in Htrace.
  destruct Htrace as [l [[Hloop Hrest] | [Hmid Hrest]]].
  2: { exfalso. rewrite Forall_forall in Htail.
       specialize (Htail (EvDone i)). rewrite Hrest in Htail.
       discriminate Htail. apply in_or_app. right. now left. }
  destruct l as [|x l].
  { exfalso. simpl in Hrest. rewrite Forall_forall in Htail.
    specialize (Htail (EvDone i)). rewrite <- Hrest in Htail.
    discriminate Htail. now left. }
  injection Hrest as <- _.
  assert (Hi : i < Z.to_nat (num_output_images w)).
  { destruct (event_loop_indices w (schedule w)
                (map new_GenerateImageProcess (Py.range (num_output_images w)))
                (EvDone i)) as [k [Hk Hin]].
    - fold (loop_events w). rewrite Hloop. apply in_or_app. right. now left.
    - destruct Hk as [[=] | [= <-]].
      rewrite map_map in Hin. cbn [index new_GenerateImageProcess] in Hin.
      rewrite map_id in Hin. now apply in_range. }
  split; [assumption |].
  pose proof (event_loop_submit_first w i (schedule w)
                (map new_GenerateImageProcess (Py.range (num_output_images w)))
                []) as Hfirst.
  specialize (Hfirst ltac:(intros p Hp _ Hstage; apply in_map_iff in Hp;
                            destruct Hp as [k [<- _]]; now contradiction Hstage)
                mid l Hloop).
  cbn [app] in Hfirst. apply in_split in Hfirst.
  destruct Hfirst as [m1 [m2 ->]].
  exists (launches ++ m1), m2. split; [now rewrite <- app_assoc |].
  apply in_or_app. left. subst launches. apply in_map. now apply in_range.
Qed.

End BatchProcessMore.

(** ** The further properties at the concrete batches *)

Lemma run_ends_iff_complete_witness :
  let '(c, responder', evs) :=
    run Sample.truth Sample.png_from Sample.render_fault
      SampleMore.item_0_pending Sample.fresh in
  ~ complete_schedule SampleMore.item_0_pending
  /\ responder' = Sample.fresh
  /\ filter past_join evs = [].
Proof.
  destruct (run Sample.truth Sample.png_from Sample.render_fault
              SampleMore.item_0_pending Sample.fresh) as [[c r] evs] eqn:Hrun.
  destruct (run_ends_iff_complete _ _ _ _ _ _ _ _ _ _ Hrun) as [Hiff Hstays].
  assert (Hc : c = Suspended).
  { pose proof Hrun as Hval. vm_compute in Hval. now injection Hval as <- _ _. }
  split.
  - intros Hcomplete. apply Hiff in Hcomplete. contradiction.
  - exact (Hstays Hc).
Defined.


Lemma response_independent_of_schedule_witness :
  fst (run Sample.truth Sample.png_from Sample.render_fault
         Sample.all_succeed Sample.fresh)
  = fst (run Sample.truth Sample.png_from Sample.render_fault
           SampleMore.in_index_order Sample.fresh).
Proof.
  destruct (run Sample.truth Sample.png_from Sample.render_fault
              Sample.all_succeed Sample.fresh) as [[c1 r1] evs1] eqn:Hrun1.
  destruct (run Sample.truth Sample.png_from Sample.render_fault
              SampleMore.in_index_order Sample.fresh)
    as [[c2 r2] evs2] eqn:Hrun2.
  assert (Hc1 : c1 <> Suspended).
  { pose proof Hrun1 as Hval. vm_compute in Hval.
    injection Hval as <- _ _. discriminate. }
  assert (Hc2 : c2 <> Suspended).
  { pose proof Hrun2 as Hval. vm_compute in Hval.
    injection Hval as <- _ _. discriminate. }
  destruct (response_independent_of_schedule _ Sample.truth _ Sample.png_from
              Sample.render_fault Sample.all_succeed SampleMore.in_index_order
              Sample.fresh _ _ _ _ _ _
              (conj eq_refl (conj (fun _ => eq_refl) (conj eq_refl eq_refl)))
              Hrun1 Hrun2 Hc1 Hc2) as [-> ->].
  reflexivity.
Defined.


Lemma first_failure_stops_assembly_witness :
  let '(c, responder', evs) :=
    run Sample.truth SampleMore.refusing_png_from Sample.render_fault
      Sample.all_succeed Sample.fresh in
  c = Raised (Exception "cannot encode")
  /\ filter is_assemble evs = [EvAssemble 0; EvAssemble 1]
  /\ filter is_send evs = []
  /\ sink responder' = [Failure].
Proof.
  destruct (run Sample.truth SampleMore.refusing_png_from Sample.render_fault
              Sample.all_succeed Sample.fresh) as [[c r] evs] eqn:Hrun.
  assert (Hc : c <> Suspended).
  { pose proof Hrun as Hval. vm_compute in Hval.
    injection Hval as <- _ _. discriminate. }
  apply (first_failure_stops_assembly _ _ _ _ _ _ _ _ _ _ 1
           (Exception "cannot encode") Hrun eq_refl Hc).
  - simpl. lia.
  - intros k Hk. assert (k = 0) as -> by lia.
    exists "png:img0", "img0". repeat split.
  - right. exists "img1". repeat split.
Defined.


Lemma each_item_once_witness :
  let '(c, responder', evs) :=
    run Sample.truth Sample.png_from Sample.render_fault
      Sample.item_1_empty Sample.fresh in
  List.length (filter (is_launch_of 1) evs) = 1
  /\ List.length (filter (is_submit_of 1) evs) = 1
  /\ List.length (filter (is_done_of 1) evs) = 1.
Proof.
  destruct (run Sample.truth Sample.png_from Sample.render_fault
              Sample.item_1_empty Sample.fresh) as [[c r] evs] eqn:Hrun.
  assert (Hc : c <> Suspended).
  { pose proof Hrun as Hval. vm_compute in Hval.
    injection Hval as <- _ _. discriminate. }
  exact (each_item_once _ _ _ _ _ _ _ _ _ _ 1 Hrun Hc).
Defined.

Lemma launches_come_first_witness :
  let '(c, responder', evs) :=
    run Sample.truth Sample.png_from Sample.render_fault
      SampleMore.item_0_pending Sample.fresh in
  exists later,
    evs = ([EvLaunch 0; EvLaunch 1; EvLaunch 2] ++ later)%list
    /\ filter is_launch later = [].
Proof.
  destruct (run Sample.truth Sample.png_from Sample.render_fault
              SampleMore.item_0_pending Sample.fresh) as [[c r] evs] eqn:Hrun.
  exact (launches_come_first _ _ _ _ _ _ _ _ _ _ Hrun).
Defined.

(** ** The VAE driver *)

Section RunVaeFacts.
Local Open Scope list_scope.
Import RunVae.

Variable raises : call -> option PyException.
Variable theta : list string.
Variable saver_truth : bool.

Lemma perform_prefix (calls : list call) :
  exists rest, calls = fst (perform raises calls) ++ rest.
Proof.
  induction calls as [|c calls [rest IH]]; simpl.
  - now exists [].
  - destruct (raises c) as [e|].
    + now exists calls.
    + destruct (perform raises calls) as [made raised]. simpl in *.
      exists rest. now rewrite <- IH.
Qed.

Lemma perform_quiet (calls : list call) :
  (forall c, In c calls -> raises c = None) ->
  perform raises calls = (calls, None).
Proof.
  induction calls as [|c calls IH]; intros Hquiet; simpl.
  - reflexivity.
  - rewrite (Hquiet c (or_introl eq_refl)).
    rewrite IH; [reflexivity |]. intros c' Hc'. apply Hquiet. now right.
Qed.

Lemma main_made_prefix (args : Args) :
  exists rest,
    fst (main_calls theta saver_truth args) =
    fst (main raises theta saver_truth args) ++ rest.
Proof.
  unfold main. destruct (main_calls theta saver_truth args) as [calls ended].
  destruct (perform_prefix calls) as [rest Hrest].
  destruct (perform raises calls) as [made [e|]]; simpl in *; now exists rest.
Qed.

Lemma filter_prefix_nil (f : call -> bool) (l made rest : list call) :
  l = made ++ rest -> filter f l = [] -> filter f made = [].
Proof.
  intros -> Hnil. rewrite filter_app in Hnil.
  now apply app_eq_nil in Hnil.
Qed.

Lemma export_vae_not_eager (decomp : bool) :
  filter is_eager (export_vae theta decomp) = [].
Proof.
  unfold export_vae. rewrite filter_app. simpl. rewrite app_nil_r.
  induction theta as [|t rest IH]; simpl; [reflexivity | exact IH].
Qed.

(** X15.  With [--export], whatever else is asked for (outputs,
    intermediates, a comparison), [main] never runs the model eagerly nor
    uses results: no forward pass, no saving, no reference run, no
    comparison; and it never ends on an unbound name.  When no call raises
    it saves the exported module under the given path and returns. *)
Theorem export_skips_eager (args : Args) (path : string) :
  export args = Some path ->
  filter is_eager (fst (main raises theta saver_truth args)) = []
  /\ (forall name,
        snd (main raises theta saver_truth args) <> UnboundLocalError name)
  /\ ((forall c, raises c = None) ->
      snd (main raises theta saver_truth args) = Returns
      /\ In (SaveMlir path) (fst (main raises theta saver_truth args))).
Proof.
  intros Hexport.
  assert (Hplan : main_calls theta saver_truth args =
                  ([TorchDtype (dtype args); GetInputDataset;
                    DatasetTo (device args); FromDataset] ++
                   match inputs args with
                   | Some p =>
                       [LoadInputs p (dtype args) (device args) (bs args)]
                   | None =>
                       [GetRandomInputs (dtype args) (device args) (bs args)
                          (sharktank_config args)]
                   end ++ export_vae theta (decomp_attn args) ++
                   [SaveMlir path; PrintExported], FallsOff)).
  { unfold main_calls. now rewrite Hexport. }
  split; [| split].
  - destruct (main_made_prefix args) as [rest Hrest].
    apply (filter_prefix_nil is_eager _ _ _ Hrest).
    rewrite Hplan. cbn [fst]. rewrite !filter_app, export_vae_not_eager.
    now destruct (inputs args).
  - intros name. unfold main. rewrite Hplan.
    now destruct (perform raises _) as [made [e|]].
  - intros Hquiet. unfold main. rewrite Hplan.
    rewrite perform_quiet by auto. split; [reflexivity |].
    cbn [fst]. rewrite !in_app_iff. right. right. right. now left.
Qed.

Lemma main_calls_eager (args : Args) :
  export args = None ->
  exists middle,
    main_calls theta saver_truth args =
    (middle ++
     fst (if compare_vs_torch args then compare args else ([], FallsOff)),
     snd (if compare_vs_torch args then compare args else ([], FallsOff)))
    /\ filter is_assert_close middle = []
    /\ filter is_run_torch_vae middle = [].
Proof.
  intros Hexport. unfold main_calls. rewrite Hexport.
  destruct (if compare_vs_torch args then compare args else ([], FallsOff))
    as [compared ended].
  eexists. split.
  - cbn [fst snd]. rewrite !app_assoc. reflexivity.
  - rewrite !filter_app.
    destruct (inputs args), (save_intermediates_path args), (outputs args),
      saver_truth; split; reflexivity.
Qed.

(** X16.  The comparison with the reference model is made only on the
    [flux] configuration of an eager run that asked for it.  On any other
    configuration, a run that asked for the comparison and in which no call
    raises ends on the unbound name [diffusers_results] before comparing
    anything: on [sdxl] after having run the reference model and dropped
    its result, otherwise without running it.  On [flux] it returns, the
    comparison being its last call. *)
Theorem comparison_needs_flux (args : Args) :
  (In AssertClose (fst (main raises theta saver_truth args)) ->
   export args = None /\ compare_vs_torch args = true
   /\ sharktank_config args = "flux"%string)
  /\ (export args = None -> compare_vs_torch args = true ->
      (forall c, raises c = None) ->
      let (made, ended) := main raises theta saver_truth args in
      if String.eqb (sharktank_config args) "flux" then
        ended = Returns
        /\ exists before,
             made = before ++
                    [RunTorchVae (torch_model args) true (dtype args);
                     PrintDiffusersResults; AssertClose]
      else
        ended = UnboundLocalError "diffusers_results"
        /\ filter is_assert_close made = []
        /\ filter is_run_torch_vae made =
           if String.eqb (sharktank_config args) "sdxl"
           then [RunTorchVae (torch_model args) false (dtype args)]
           else []).
Proof.
  split.
  - intros Hin.
    destruct (main_made_prefix args) as [rest Hrest].
    assert (Hplan : In AssertClose (fst (main_calls theta saver_truth args))).
    { rewrite Hrest. apply in_or_app. now left. }
    clear Hin Hrest.
    destruct (export args) as [path|] eqn:Hexport.
    + exfalso. unfold main_calls in Hplan. rewrite Hexport in Hplan.
      cbn [fst] in Hplan. rewrite !in_app_iff in Hplan.
      destruct Hplan as [H | [H | [H | H]]].
      * simpl in H. intuition discriminate.
      * destruct (inputs args); simpl in H; intuition discriminate.
      * unfold export_vae in H. rewrite in_app_iff in H.
        destruct H as [H | H].
        -- apply in_map_iff in H. destruct H as [t [H _]]. discriminate.
        -- simpl in H. intuition discriminate.
      * simpl in H. intuition discriminate.
    + destruct (main_calls_eager args Hexport) as [middle [Hcalls [Hmid _]]].
      rewrite Hcalls in Hplan. cbn [fst] in Hplan.
      apply in_app_or in Hplan. destruct Hplan as [H | H].
      * exfalso. assert (Hf : In AssertClose (filter is_assert_close middle))
          by (apply filter_In; now split).
        now rewrite Hmid in Hf.
      * destruct (compare_vs_torch args); [| contradiction].
        split; [reflexivity | split; [reflexivity |]].
        unfold compare in H.
        destruct (String.eqb_spec (sharktank_config args) "flux")
          as [Hflux | _]; [assumption |].
        exfalso.
        destruct (String.eqb (sharktank_config args) "sdxl");
          simpl in H; intuition discriminate.
  - intros Hexport Hcompare Hquiet.
    destruct (main_calls_eager args Hexport) as [middle [Hcalls [Hmid Hrun]]].
    unfold main. rewrite Hcalls, Hcompare. rewrite perform_quiet by auto.
    unfold compare.
    destruct (String.eqb (sharktank_config args) "flux").
    + cbn [fst snd]. split; [reflexivity |].
      exists (middle ++ [ImportRunTorchVae]). now rewrite <- app_assoc.
    + destruct (String.eqb (sharktank_config args) "sdxl"); cbn [fst snd];
        rewrite !filter_app, Hmid, Hrun; repeat split; reflexivity.
Qed.

End RunVaeFacts.

Lemma export_skips_eager_witness :
  filter RunVae.is_eager
    (fst (RunVae.main (fun _ => None) ["w"; "b"] true RunVae.export_and_more))
  = []
  /\ snd (RunVae.main (fun _ => None) ["w"; "b"] true RunVae.export_and_more)
     = RunVae.Returns.
Proof.
  destruct (export_skips_eager (fun _ => None) ["w"; "b"] true
              RunVae.export_and_more "vae.mlir" eq_refl)
    as [Heager [_ Hquiet]].
  split; [exact Heager |].
  exact (proj1 (Hquiet (fun _ => eq_refl))).
Defined.

Lemma comparison_needs_flux_witness :
  snd (RunVae.main (fun _ => None) ["w"; "b"] true RunVae.compare_sdxl)
  = RunVae.UnboundLocalError "diffusers_results"
  /\ snd (RunVae.main (fun _ => None) ["w"; "b"] true RunVae.compare_flux)
     = RunVae.Returns.
Proof.
  pose proof (proj2 (comparison_needs_flux (fun _ => None) ["w"; "b"] true
                       RunVae.compare_sdxl)
                eq_refl eq_refl (fun _ => eq_refl)) as Hsdxl.
  pose proof (proj2 (comparison_needs_flux (fun _ => None) ["w"; "b"] true
                       RunVae.compare_flux)
                eq_refl eq_refl (fun _ => eq_refl)) as Hflux.
  destruct (RunVae.main (fun _ => None) ["w"; "b"] true RunVae.compare_sdxl)
    as [made1 ended1].
  destruct (RunVae.main (fun _ => None) ["w"; "b"] true RunVae.compare_flux)
    as [made2 ended2].
  simpl in Hsdxl, Hflux. split; [apply Hsdxl | apply Hflux].
Defined.

(** ** Sign of the reported duration *)

Section DurationSign.
Local Open Scope Z_scope.

Lemma shr_1_nonneg (mrs : shr_record) :
  0 <= shr_m mrs -> 0 <= shr_m (shr_1 mrs).
Proof.
  destruct mrs as [m r s]. simpl.
  destruct m as [|[p|p|]|p]; simpl; lia.
Qed.

Lemma iter_shr_1_nonneg (p : positive) :
  forall mrs, 0 <= shr_m mrs -> 0 <= shr_m (iter_pos shr_1 p mrs).
Proof.
  induction p as [p IH | p IH |]; intros mrs Hm; simpl.
  - apply IH, IH, shr_1_nonneg, Hm.
  - apply IH, IH, Hm.
  - apply shr_1_nonneg, Hm.
Qed.

Lemma shr_fexp_nonneg (m e : Z) (l : location) :
  0 <= m -> 0 <= shr_m (fst (shr_fexp PyFloat.prec PyFloat.emax m e l)).
Proof.
  intros Hm. unfold shr_fexp, shr.
  assert (Hrec : 0 <= shr_m (shr_record_of_loc m l))
    by (destruct l as [|[]]; exact Hm).
  destruct (fexp PyFloat.prec PyFloat.emax (Zdigits2 m + e) - e) as [|p|p];
    simpl; try assumption.
  now apply iter_shr_1_nonneg.
Qed.

Lemma round_nearest_even_nonneg (m : Z) (l : location) :
  0 <= m -> 0 <= round_nearest_even m l.
Proof.
  intros Hm. unfold round_nearest_even.
  destruct l as [|[]]; try destruct (Z.even m); lia.
Qed.

Lemma binary_round_aux_sign (s : bool) (m e : Z) (l : location) :
  0 <= m ->
  has_sign s (binary_round_aux PyFloat.prec PyFloat.emax s m e l).
Proof.
  intros Hm. unfold binary_round_aux.
  pose proof (shr_fexp_nonneg m e l Hm) as H1.
  destruct (shr_fexp PyFloat.prec PyFloat.emax m e l) as [mrs' e'].
  cbn [fst] in H1.
  pose proof (shr_fexp_nonneg
                (round_nearest_even (shr_m mrs') (loc_of_shr_record mrs'))
                e' loc_Exact
                (round_nearest_even_nonneg _ _ H1)) as H2.
  destruct (shr_fexp PyFloat.prec PyFloat.emax
              (round_nearest_even (shr_m mrs') (loc_of_shr_record mrs'))
              e' loc_Exact) as [mrs'' e''].
  cbn [fst] in H2.
  destruct (shr_m mrs'') as [|p|p]; [reflexivity | | lia].
  now destruct (e'' <=? PyFloat.emax - PyFloat.prec).
Qed.

Lemma binary_round_sign (s : bool) (m : positive) (e : Z) :
  has_sign s (binary_round PyFloat.prec PyFloat.emax s m e).
Proof.
  unfold binary_round.
  destruct (shl_align m e _) as [mz ez].
  apply binary_round_aux_sign. lia.
Qed.

(** The quotient of two integers bears the sign of the dividend. *)
Lemma int_truediv_sign (a b : Z) :
  0 < b ->
  has_sign (a <? 0) (PyFloat.int_truediv a b).
Proof.
  intros Hb. unfold PyFloat.int_truediv.
  set (scaled := Z.abs a * 2 ^ 80).
  set (sticky := if scaled mod b =? 0 then 0 else 1).
  assert (Hq : 0 <= scaled / b) by (apply Z.div_pos; subst scaled; lia).
  assert (Hsticky : 0 <= sticky) by (subst sticky; destruct (_ =? 0); lia).
  destruct (Z.ltb_spec a 0) as [Hneg | Hpos].
  - assert (Hpositive : 0 < 2 * (scaled / b) + sticky).
    { destruct (Z.eq_dec (scaled mod b) 0) as [Hzero | Hnonzero].
      - assert (0 < scaled / b); [| lia].
        apply Z.div_str_pos. split; [assumption |].
        assert (0 < scaled) by (subst scaled; lia).
        pose proof (Z.div_mod scaled b ltac:(lia)) as Hdm.
        rewrite Hzero in Hdm.
        destruct (Z.le_gt_cases b scaled); [assumption |].
        rewrite Z.div_small in Hdm by lia. lia.
      - subst sticky. destruct (Z.eqb_spec (scaled mod b) 0); lia. }
    replace (Z.sgn a) with (-1) by lia.
    destruct (2 * (scaled / b) + sticky) as [|p|p] eqn:Hval; try lia.
    simpl. apply binary_round_sign.
  - destruct (Z.eq_dec a 0) as [-> | Hne].
    + reflexivity.
    + replace (Z.sgn a) with 1 by lia.
      destruct (2 * (scaled / b) + sticky) as [|p|p] eqn:Hval; try lia.
      * reflexivity.
      * rewrite Z.mul_1_l. simpl. apply binary_round_sign.
Qed.

(** Dividing by a positive finite float keeps the sign. *)
Lemma truediv_sign (s : bool) (x : PyFloat.float) (my : positive) (ey : Z) :
  has_sign s x ->
  has_sign s (PyFloat.truediv x (S754_finite false my ey)).
Proof.
  intros Hx. unfold PyFloat.truediv, SFdiv.
  destruct x as [sx | sx | | sx mx ex]; simpl in Hx; subst;
    try contradiction; try (simpl; now destruct s).
  unfold SFdiv_core_binary.
  set (m' := match ex - ey - _ with
             | 0 => Z.pos mx
             | Z.pos _ => Z.shiftl (Z.pos mx) _
             | Z.neg _ => 0
             end).
  assert (Hm' : 0 <= m').
  { subst m'. destruct (ex - ey - _); [lia | | lia].
    apply Z.shiftl_nonneg. lia. }
  pose proof (Z.div_pos m' (Z.pos my) Hm' ltac:(lia)) as Hq.
  unfold Z.div in Hq.
  destruct (Z.div_eucl m' (Z.pos my)) as [q r]. cbn [fst] in Hq.
  replace (xorb s false) with s by now destruct s.
  now apply binary_round_aux_sign.
Qed.

Lemma repr_negative (x : PyFloat.float) :
  has_sign true x -> exists rest, PyFloat.repr x = ("-" ++ rest)%string.
Proof.
  destruct x as [s | s | | s m e]; cbn [has_sign PyFloat.repr]; intros Hs;
    subst; try contradiction; try (eexists; reflexivity).
  destruct (PyFloat.digits_decpt m e) as [ds decpt].
  eexists. reflexivity.
Qed.

Lemma MILLI_value : MILLI = S754_finite false 4611686018427388 (-62).
Proof. vm_compute. reflexivity. Qed.

Lemma duration_has_sign {Image : Type} (w : World Image) :
  has_sign (interval_end w - interval_start w <? 0)
    (batch_duration_in_milliseconds w).
Proof.
  unfold batch_duration_in_milliseconds, milliseconds_from, total_seconds,
    datetime_sub.
  rewrite MILLI_value. apply truediv_sign, int_truediv_sign. reflexivity.
Qed.

(** X17.  The duration reported for the inference and post-processing
    phases is never NaN and bears the sign of the difference of the two
    clock readings: when the wall clock stepped back during the batch its
    text starts with a minus sign, and when the two readings are equal its
    text is [0.0]. *)
Theorem duration_sign_follows_clock {Image : Type} (w : World Image) :
  batch_duration_in_milliseconds w <> S754_nan
  /\ (interval_start w <= interval_end w ->
      has_sign false (batch_duration_in_milliseconds w))
  /\ (interval_end w < interval_start w ->
      exists rest,
        PyFloat.repr (batch_duration_in_milliseconds w) = ("-" ++ rest)%string)
  /\ (interval_end w = interval_start w ->
      PyFloat.repr (batch_duration_in_milliseconds w) = "0.0"%string).
Proof.
  pose proof (duration_has_sign w) as Hsign.
  split; [| split; [| split]].
  - intros Hnan. rewrite Hnan in Hsign. exact Hsign.
  - intros Hle.
    now replace (interval_end w - interval_start w <? 0) with false in Hsign
      by (symmetry; apply Z.ltb_ge; lia).
  - intros Hlt. apply repr_negative.
    now replace (interval_end w - interval_start w <? 0) with true in Hsign
      by (symmetry; apply Z.ltb_lt; lia).
  - intros Heq.
    unfold batch_duration_in_milliseconds, datetime_sub.
    rewrite Heq, Z.sub_diag. vm_compute. reflexivity.
Qed.

Lemma duration_sign_follows_clock_witness :
  PyFloat.repr (batch_duration_in_milliseconds SampleMore.clock_stepped_back)
  = "-250.0"%string.
Proof.
  destruct (proj1 (proj2 (proj2
              (duration_sign_follows_clock SampleMore.clock_stepped_back)))
              eq_refl) as [rest Hrest].
  rewrite Hrest. vm_compute in Hrest. now injection Hrest as <-.
Defined.

End DurationSign.

Lemma done_after_submit_after_launch_witness :
  2 < 3
  /\ exists earlier between,
       [EvLaunch 0; EvLaunch 1; EvLaunch 2; EvSubmit 2; EvSubmit 1]
       = (earlier ++ EvSubmit 2 :: between)%list
       /\ In (EvLaunch 2) earlier.
Proof.
  destruct (run Sample.truth Sample.png_from Sample.render_fault
              Sample.all_succeed Sample.fresh) as [[c r] evs] eqn:Hrun.
  apply (done_after_submit_after_launch _ _ _ _ _ _ _ _ _ _ 2 Hrun
           [EvLaunch 0; EvLaunch 1; EvLaunch 2; EvSubmit 2; EvSubmit 1]
           [EvSubmit 0; EvDone 0; EvDone 1; EvAssemble 0; EvAssemble 1;
            EvAssemble 2; EvSendResponse; EvEnsureResponse]).
  pose proof Hrun as Hval. vm_compute in Hval.
  now injection Hval as _ _ <-.
Defined.
